(** * RuntimeV3 MCP server: transport and resilience layer

    A shallow embedding of the parts of [server.py] that carry the
    transport and service-resilience behaviour:

    - the tolerant [Content-Length] frame reader ([read_packet], [reader])
      and the frame writer ([writer]) of [_stdio_server];
    - the lazily loaded embedding model ([_get_embed_model]);
    - the start-up Redis probe ([_check_redis_connection]) and the guard
      of the store-dependent tools;
    - the numeric tool [normalize].

    Python [bytes] are [list byte], Python [str] is [string], Python
    [int] is [Z], a [dict[str, str]] is a [gmap string string], and
    Python [float] is the binary64 primitive float of Rocq. *)

From Stdlib Require Import ZArith List Ascii String Strings.Byte Lia Floats.
From Stdlib Require DecimalNat DecimalFacts.
From stdpp Require Import gmap strings list.

Local Open Scope Z_scope.

(** ** Python values shared by all components *)

(** Exceptions derived from [Exception]; the constructor is the class,
    the argument the message. *)
Inductive exn : Type :=
| ValueError (msg : string)
| RuntimeError (msg : string)
| TimeoutError (msg : string)
| AttributeError (msg : string)
| OtherError (cls msg : string).

(** A call either returns a value or raises. *)
Inductive result (A : Type) : Type :=
| Ok (a : A)
| Raise (e : exn).
Arguments Ok {A} a.
Arguments Raise {A} e.

Module Bytes.

(** Python [bytes]. *)
Abbreviation bytes := (list byte).

#[global] Instance byte_eq_dec : EqDecision byte := Byte.byte_eq_dec.

Definition LF : byte := x0a.
Definition CR : byte := x0d.
Definition COLON : byte := x3a.

(** A [bytes] literal without escapes. *)
Definition b (s : string) : bytes := list_byte_of_string s.

Definition is_lf (c : byte) : bool := bool_decide (c = LF).
Definition is_colon (c : byte) : bool := bool_decide (c = COLON).

(** [BufferedReader.readline()] on the bytes that remain before
    end-of-stream: the bytes up to and including the first LF, or all
    remaining bytes when there is none; [b""] at end-of-stream. The
    second component is what remains in the stream. *)
Fixpoint readline (stdin : bytes) : bytes * bytes :=
  match stdin with
  | [] => ([], [])
  | c :: rest =>
      if is_lf c then ([c], rest)
      else let '(line, rest') := readline rest in (c :: line, rest')
  end.

(** [BufferedReader.read(size)]: a size below -1 is rejected with
    [ValueError], -1 reads to end-of-stream, otherwise up to [size]
    bytes are returned (fewer only at end-of-stream). The stream
    serves every size; the limits of the interpreter on the size are
    added in [Limits.read]. *)
Definition read (size : Z) (stdin : bytes) : result (bytes * bytes) :=
  if size <? -1 then Raise (ValueError "read length must be non-negative or -1")
  else if size =? -1 then Ok (stdin, [])
  else Ok (take (Z.to_nat size) stdin, drop (Z.to_nat size) stdin).

(** [line.endswith(b"\r\n")] / [line.endswith(b"\n")] and the slices
    [line[:-2]] / [line[:-1]] of [read_packet]. *)
Definition endswith (suffix line : bytes) : bool :=
  bool_decide (drop (length line - length suffix)%nat line = suffix).

Definition chop (n : nat) (line : bytes) : bytes :=
  take (length line - n)%nat line.

Definition normalize_eol (line : bytes) : bytes :=
  if endswith [CR; LF] line then chop 2 line
  else if endswith [LF] line then chop 1 line
  else line.

(** [b":" in line] *)
Definition has_colon (line : bytes) : bool := existsb is_colon line.

(** [line.split(b":", 1)] for a line that contains a colon: the bytes
    before the first colon and the bytes after it. *)
Fixpoint split_colon (line : bytes) : bytes * bytes :=
  match line with
  | [] => ([], [])
  | c :: rest =>
      if is_colon c then ([], rest)
      else let '(k, v) := split_colon rest in (c :: k, v)
  end.

End Bytes.

Module Str.
Import Bytes.

(** Python [str] operations, on the characters of the string. *)

(** [bytes.decode("ascii", "ignore")]: bytes outside 0..127 are dropped. *)
Definition is_ascii7 (c : byte) : bool := (Byte.to_N c <? 128)%N.

Definition decode_ascii_ignore (bs : bytes) : list ascii :=
  map ascii_of_byte (filter (fun c => is_ascii7 c = true) bs).

(** [str.isspace] on the ASCII range: TAB, LF, VT, FF, CR, FS, GS, RS,
    US and space. *)
Definition is_space (c : ascii) : bool :=
  let n := N_of_ascii c in
  ((9 <=? n) && (n <=? 13) || (28 <=? n) && (n <=? 32))%N.

Fixpoint lstrip (s : list ascii) : list ascii :=
  match s with
  | c :: s' => if is_space c then lstrip s' else s
  | [] => []
  end.

(** [str.strip()] *)
Definition strip (s : list ascii) : list ascii :=
  rev (lstrip (rev (lstrip s))).

(** [str.lower()] on the ASCII range. *)
Definition lower_char (c : ascii) : ascii :=
  let n := N_of_ascii c in
  if ((65 <=? n) && (n <=? 90))%N then ascii_of_N (n + 32) else c.

Definition lower (s : list ascii) : list ascii := map lower_char s.

Definition digit_val (c : ascii) : option Z :=
  let n := N_of_ascii c in
  if ((48 <=? n) && (n <=? 57))%N then Some (Z.of_N n - 48) else None.

Definition is_underscore (c : ascii) : bool := (N_of_ascii c =? 95)%N.

(** The digits of [int(s)] after the first one: a digit, or one
    underscore followed by a digit. *)
Fixpoint int_digits (acc : Z) (s : list ascii) : option Z :=
  match s with
  | [] => Some acc
  | c :: s' =>
      if is_underscore c then
        match s' with
        | [] => None
        | d :: s'' =>
            match digit_val d with
            | Some v => int_digits (10 * acc + v) s''
            | None => None
            end
        end
      else
        match digit_val c with
        | Some v => int_digits (10 * acc + v) s'
        | None => None
        end
  end.

Definition int_unsigned (s : list ascii) : option Z :=
  match s with
  | [] => None
  | c :: s' =>
      match digit_val c with
      | Some v => int_digits v s'
      | None => None
      end
  end.

(** [int(s)] in base 10: surrounding whitespace is ignored, one sign is
    allowed, digits may be grouped by single underscores. [None] stands
    for [ValueError]. The interpreter's limit on the number of digits
    of a decimal string is added in [Limits.int]. *)
Definition int_chars (s : list ascii) : option Z :=
  match strip s with
  | c :: s' =>
      if (N_of_ascii c =? 43)%N then int_unsigned s'
      else if (N_of_ascii c =? 45)%N then Z.opp <$> int_unsigned s'
      else int_unsigned (c :: s')
  | [] => None
  end.

Definition int (s : string) : option Z := int_chars (list_ascii_of_string s).

(** [str(n)] for a length: its decimal digits. *)
Fixpoint uint_chars (d : Decimal.uint) : list ascii :=
  match d with
  | Decimal.Nil => []
  | Decimal.D0 d => "0"%char :: uint_chars d
  | Decimal.D1 d => "1"%char :: uint_chars d
  | Decimal.D2 d => "2"%char :: uint_chars d
  | Decimal.D3 d => "3"%char :: uint_chars d
  | Decimal.D4 d => "4"%char :: uint_chars d
  | Decimal.D5 d => "5"%char :: uint_chars d
  | Decimal.D6 d => "6"%char :: uint_chars d
  | Decimal.D7 d => "7"%char :: uint_chars d
  | Decimal.D8 d => "8"%char :: uint_chars d
  | Decimal.D9 d => "9"%char :: uint_chars d
  end.

Definition str_of_nat (n : nat) : list ascii := uint_chars (Nat.to_uint n).

(** The characters [str(n)] is made of. *)
Definition is_digit (c : ascii) : bool :=
  ((48 <=? N_of_ascii c) && (N_of_ascii c <=? 57))%N.

(** [str.encode("ascii")] of a string of ASCII characters. *)
Definition encode_ascii (s : list ascii) : bytes := map byte_of_ascii s.

End Str.

Module Frame.
Import Bytes Str.

(** ** The tolerant frame reader of [_stdio_server] *)

(** What one call of [read_packet] does: it returns a body, returns
    [None], or lets an exception escape; in each case some input has
    been consumed. *)
Inductive packet : Type :=
| Body (body : bytes) (rest : bytes)
| NoPacket (rest : bytes)
| Raised (e : exn) (rest : bytes).

(** The header key and value stored for a line with a colon. *)
Definition header_key (k : bytes) : string :=
  string_of_list_ascii (lower (strip (decode_ascii_ignore k))).

Definition header_value (v : bytes) : string :=
  string_of_list_ascii (strip (decode_ascii_ignore v)).

(** The part of [read_packet] after the header block: the
    [content-length] lookup, [int], and the body read. [None] means
    [continue] (scan for the next block). *)
Definition read_body (headers : gmap string string) (stdin : bytes)
  : option packet :=
  match headers !! "content-length"%string with
  | None => None
  | Some length_str =>
      if bool_decide (length_str = ""%string) then None
      else
        match int length_str with
        | None => None
        | Some len =>
            match read len stdin with
            | Raise e => Some (Raised e stdin)
            | Ok (body, rest) =>
                if bool_decide (body = []) || (Z.of_nat (length body) <? len)
                then Some (NoPacket rest)
                else Some (Body body rest)
            end
        end
  end.

(** [read_packet]: both [while True] loops as one recursion. [headers]
    is the dictionary of the block being read; the outer loop's
    [continue] is the recursive call with the empty dictionary. Every
    iteration reads one line, so the recursion is bounded by the number
    of bytes that remain; [fuel] counts the lines that may still be
    read and [None] is returned only when it runs out. *)
Fixpoint read_packet_loop (fuel : nat) (headers : gmap string string)
    (stdin : bytes) : option packet :=
  match fuel with
  | O => None
  | S fuel' =>
      let '(line, rest) := readline stdin in
      if bool_decide (line = []) then Some (NoPacket rest)
      else
        let line := normalize_eol line in
        if bool_decide (line = []) then
          match read_body headers rest with
          | Some p => Some p
          | None => read_packet_loop fuel' ∅ rest
          end
        else if has_colon line then
          let '(k, v) := split_colon line in
          read_packet_loop fuel' (<[header_key k := header_value v]> headers) rest
        else read_packet_loop fuel' headers rest
  end.

Definition read_packet_fuel (fuel : nat) (stdin : bytes) : option packet :=
  read_packet_loop fuel ∅ stdin.

(** [read_packet] on the bytes that remain on stdin. *)
Definition read_packet (stdin : bytes) : option packet :=
  read_packet_fuel (S (length stdin)) stdin.

(** ** The frame writer *)

(** The first line of the header for [n] bytes, without its line
    ending. *)
Definition header_line (n : nat) : bytes :=
  encode_ascii (list_ascii_of_string "Content-Length: " ++ str_of_nat n).

(** The header [f"Content-Length: {n}\r\n\r\n".encode("ascii")]. *)
Definition content_length_header (n : nat) : bytes :=
  header_line n ++ [CR; LF; CR; LF].

(** [header + payload] as [writer] writes it for one message. *)
Definition header (payload : bytes) : bytes :=
  content_length_header (length payload).

Definition frame (payload : bytes) : bytes := header payload ++ payload.

(** What [read_packet] does after a header block that declares [n]
    bytes: it reads up to [n] bytes and returns them unless they are
    empty or fewer than [n]. *)
Definition after_header (n : nat) (stdin : bytes) : packet :=
  if bool_decide (take n stdin = []) || (Z.of_nat (length (take n stdin)) <? Z.of_nat n)
  then NoPacket (drop n stdin)
  else Body (take n stdin) (drop n stdin).

(** ** The reader loop *)

(** How [reader] leaves its loop: [break] on [None], or the handler
    [except Exception as e] around the whole loop. *)
Inductive reader_exit : Type :=
| EndOfStream
| ReaderError (e : exn).

(** [reader]: the bodies handed, in order, to
    [JSONRPCMessage.model_validate_json] and from there to the session
    stream, and the way the loop ends. A body that fails validation is
    logged inside the loop and the loop goes on, so the sequence of
    bodies does not depend on the validation. Every body returned has
    consumed input, so [fuel] bounds the number of packets. *)
Fixpoint reader_loop (fuel : nat) (stdin : bytes)
  : option (list bytes * reader_exit) :=
  match fuel with
  | O => None
  | S fuel' =>
      match read_packet stdin with
      | None => None
      | Some (NoPacket _) => Some ([], EndOfStream)
      | Some (Raised e _) => Some ([], ReaderError e)
      | Some (Body body rest) =>
          match reader_loop fuel' rest with
          | Some (bodies, ex) => Some (body :: bodies, ex)
          | None => None
          end
      end
  end.

Definition reader (stdin : bytes) : option (list bytes * reader_exit) :=
  reader_loop (S (length stdin)) stdin.

(** ** Streams used to state the properties of the reader *)

(** A line of noise, given without its terminating LF: it has no LF
    inside, and it either has no colon or is a header whose stored key
    is not [content-length]. *)
Definition is_noise_line (l : bytes) : bool :=
  negb (existsb is_lf l)
  && (negb (has_colon l)
      || negb (bool_decide (header_key (split_colon l).1 = "content-length"%string))).

(** Lines of noise, each terminated by LF. *)
Definition noise (garbage : list bytes) : bytes :=
  concat (map (fun l => l ++ [LF]) garbage).

(** [writer]: the bytes written to stdout for the payloads of the
    messages it receives, in order. *)
Definition writer (payloads : list bytes) : bytes :=
  concat (map frame payloads).

End Frame.

(** * The lazily loaded embedding model *)

Module Embed.

(** A loaded model is an object; two constructor calls give two
    objects. The handle is the object's identity: the number of the
    constructor call that made it. *)
Definition handle := nat.

(** What one call of [SentenceTransformer(EMBED_MODEL_NAME)] does. The
    constructor is outside the program; a time-out of the load reaches
    the program as a raised [TimeoutError]. *)
Inductive construction : Type :=
| Loaded
| Raises (e : exn).

(** The process state the loader touches: the global [_embed_model],
    the number of constructor calls made so far, and the arguments of
    the [time.sleep] calls made so far, oldest first. *)
Record world : Type := World {
  _embed_model : option handle;
  constructed : nat;
  slept : list Z;
}.

Definition initial : world :=
  {| _embed_model := None; constructed := 0; slept := [] |}.

Section Loader.

(** The outcome of the constructor call number [k], counted from 0. *)
Variable SentenceTransformer : nat -> construction.

Definition construct (w : world) : result handle * world :=
  let k := constructed w in
  let w' := {| _embed_model := _embed_model w;
               constructed := S k; slept := slept w |} in
  match SentenceTransformer k with
  | Loaded => (Ok k, w')
  | Raises e => (Raise e, w')
  end.

(** [_get_embed_model] of [server.py]. *)
Definition _get_embed_model (w : world) : result handle * world :=
  match _embed_model w with
  | Some model => (Ok model, w)
  | None =>
      match construct w with
      | (Ok model, w') =>
          (Ok model, {| _embed_model := Some model;
                        constructed := constructed w'; slept := slept w' |})
      | (Raise e, w') => (Raise e, w')
      end
  end.

(** [n] calls of [_get_embed_model], one after the other: what each
    returned, and the state after the last. *)
Fixpoint calls (n : nat) (w : world) : list (result handle) * world :=
  match n with
  | O => ([], w)
  | S n' =>
      let '(r, w1) := _get_embed_model w in
      let '(rs, w2) := calls n' w1 in
      (r :: rs, w2)
  end.

(** ** The retry logic as [test_embedding_timeout.py] simulates it *)

Definition sleep (seconds : Z) (w : world) : world :=
  {| _embed_model := _embed_model w; constructed := constructed w;
     slept := slept w ++ [seconds] |}.

Definition is_timeout (e : exn) : bool :=
  match e with TimeoutError _ => true | _ => false end.

Definition exhausted (EMBED_LOAD_TIMEOUT : nat) : exn :=
  RuntimeError
    ("Failed to load embedding model after 3 attempts (timeout: "
     +:+ string_of_list_ascii (Str.str_of_nat EMBED_LOAD_TIMEOUT)
     +:+ "s). Try increasing MCP_EMBED_LOAD_TIMEOUT or check your network connection.").

(** The loop [for attempt in range(3)] of [test_retry_logic_all_timeouts]
    and [test_non_timeout_exception_not_retried], over the attempts that
    remain: a load that succeeds leaves the loop, a [TimeoutError] on
    attempt 2 raises the exhaustion error, a [TimeoutError] before that
    sleeps [2 ** attempt] seconds, any other exception is raised again.
    [None] is the loop running to its end. *)
Fixpoint retry_loop (EMBED_LOAD_TIMEOUT : nat) (attempts : list nat) (w : world)
  : result (option handle) * world :=
  match attempts with
  | [] => (Ok None, w)
  | attempt :: attempts' =>
      match construct w with
      | (Ok model, w') => (Ok (Some model), w')
      | (Raise e, w') =>
          if is_timeout e then
            if bool_decide (attempt = 2%nat) then
              (Raise (exhausted EMBED_LOAD_TIMEOUT), w')
            else
              retry_loop EMBED_LOAD_TIMEOUT attempts'
                (sleep (2 ^ Z.of_nat attempt) w')
          else (Raise e, w')
      end
  end.

Definition retry_logic (EMBED_LOAD_TIMEOUT : nat) (w : world)
  : result (option handle) * world :=
  retry_loop EMBED_LOAD_TIMEOUT (seq 0 3) w.

End Loader.

(** A constructor that times out on every call. *)
Definition always_times_out (_ : nat) : construction :=
  Raises (TimeoutError "Operation timed out after 300s").

End Embed.

(** * The Redis probe and the store-dependent tools *)

Module Store.

#[local] Set Warnings "-register-all".

(** The values tools return; a dictionary is the list of its items. *)
Inductive value : Type :=
| VNone
| VBool (v : bool)
| VInt (v : Z)
| VStr (v : string)
| VDict (items : list (string * value)).

(** The client object that [redis.Redis(...)] makes at import. Making
    it does not connect. *)
Record Redis : Type := { host : string; port : Z; db : Z }.

(** The commands the modelled tools send to the server. *)
Inductive command : Type :=
| PING
| SET (key val : string) (ex : option Z)
| GET (key : string)
| DEL (key : string).

(** The globals [MEMORY_ENABLED] and [redis_client], the keys the
    server holds, and the commands sent to it so far, oldest first. A
    command that has been sent after a successful probe is taken to
    succeed. *)
Record world : Type := World {
  MEMORY_ENABLED : bool;
  redis_client : option Redis;
  store : gmap string string;
  commands : list command;
}.

Definition send (c : command) (w : world) : world :=
  {| MEMORY_ENABLED := MEMORY_ENABLED w; redis_client := redis_client w;
     store := match c with
              | SET k v _ => <[k := v]> (store w)
              | DEL k => delete k (store w)
              | _ => store w
              end;
     commands := commands w ++ [c] |}.

(** The module-level state after import: the client exists, memory is
    off until the probe has run. *)
Definition startup (client : Redis) (keys : gmap string string) : world :=
  {| MEMORY_ENABLED := false; redis_client := Some client;
     store := keys; commands := [] |}.

(** The store-dependent tools whose bodies are not spelled out below. *)
Inductive guarded_tool : Type :=
| list_memory_keys | index_project_files | index_single_file
| search_indexed_files | save_agent_snapshot | load_agent_snapshot
| list_agent_snapshots | delete_agent_snapshot | clear_all_agent_snapshots
| semantic_search_files | semantic_search_agents | queue_task
| get_next_task | finish_task | task_history | clear_task_history.

(** A tool call: the tool and its arguments. *)
Inductive tool : Type :=
| ping
| echo (message : string)
| set_memory (key val : string)
| get_memory (key : string)
| delete_memory (key : string)
| other (name : guarded_tool) (args : list value).

(** The tools that start with the guard on [MEMORY_ENABLED] and
    [redis_client]. *)
Definition store_dependent (t : tool) : bool :=
  match t with
  | ping | echo _ => false
  | _ => true
  end.

Definition REDIS_MEMORY_PREFIX : string := "mem:".

Section Server.

(** [redis_client.ping()], run in the executor: it returns or raises. *)
Variable redis_ping : Redis -> result unit.

(** What a tool of [guarded_tool] does once its guard has let it
    through. *)
Variable body : guarded_tool -> list value -> Redis -> world -> result value * world.

(** The key and the entry [_log_tool_call] writes for a call; both
    depend on the clock. *)
Variable log_entry : tool -> string * string.

(** [_check_redis_connection]: the [try] block, then the handler
    [except Exception]. With no client the attribute access
    [redis_client.ping] raises [AttributeError] inside the [try]. *)
Definition _check_redis_connection (w : world) : result unit * world :=
  let attempt : result unit * world :=
    match redis_client w with
    | None =>
        (Raise (AttributeError "'NoneType' object has no attribute 'ping'"), w)
    | Some client =>
        let w1 := send PING w in
        match redis_ping client with
        | Ok _ =>
            (Ok tt, {| MEMORY_ENABLED := true; redis_client := redis_client w1;
                       store := store w1; commands := commands w1 |})
        | Raise e => (Raise e, w1)
        end
    end in
  match attempt with
  | (Ok _, w') => (Ok tt, w')
  | (Raise _, w') =>
      (Ok tt, {| MEMORY_ENABLED := false; redis_client := None;
                 store := store w'; commands := commands w' |})
  end.

(** The first two lines of every store-dependent tool:
    [if not MEMORY_ENABLED or not redis_client: raise RuntimeError(...)]. *)
Definition guarded (f : Redis -> world -> result value * world) (w : world)
  : result value * world :=
  match MEMORY_ENABLED w, redis_client w with
  | true, Some client => f client w
  | _, _ => (Raise (RuntimeError "Redis memory is not enabled."), w)
  end.

(** The tool functions. *)
Definition run (t : tool) (w : world) : result value * world :=
  match t with
  | ping => (Ok (VStr "pong"), w)
  | echo message => (Ok (VStr ("Echo: " +:+ message)), w)
  | set_memory key val =>
      guarded (fun _ w =>
        (Ok (VDict [("ok"%string, VBool true); ("key"%string, VStr key)]),
         send (SET (REDIS_MEMORY_PREFIX +:+ key) val None) w)) w
  | get_memory key =>
      guarded (fun _ w =>
        let val := store w !! (REDIS_MEMORY_PREFIX +:+ key) in
        (Ok (VDict [("key"%string, VStr key);
                    ("value"%string, from_option VStr VNone val)]),
         send (GET (REDIS_MEMORY_PREFIX +:+ key)) w)) w
  | delete_memory key =>
      guarded (fun _ w =>
        let deleted :=
          match store w !! (REDIS_MEMORY_PREFIX +:+ key) with
          | Some _ => 1
          | None => 0
          end in
        (Ok (VDict [("ok"%string, VBool true); ("deleted"%string, VInt deleted)]),
         send (DEL (REDIS_MEMORY_PREFIX +:+ key)) w)) w
  | other name args => guarded (body name args) w
  end.

(** [_log_tool_call]: nothing without the store, otherwise one [SET]
    with a day of expiry. *)
Definition _log_tool_call (t : tool) (w : world) : world :=
  match MEMORY_ENABLED w, redis_client w with
  | true, Some _ =>
      let '(key, entry) := log_entry t in send (SET key entry (Some 86400)) w
  | _, _ => w
  end.

(** A tool as registered through [tool_with_logging]: the call is
    logged, then the tool function runs. *)
Definition invoke (t : tool) (w : world) : result value * world :=
  run t (_log_tool_call t w).

(** Tool calls served one after the other. *)
Fixpoint serve (ts : list tool) (w : world) : list (result value) * world :=
  match ts with
  | [] => ([], w)
  | t :: ts' =>
      let '(r, w1) := invoke t w in
      let '(rs, w2) := serve ts' w1 in
      (r :: rs, w2)
  end.

(** What a call answers while the store is off. *)
Definition answer_without_store (t : tool) : result value :=
  match t with
  | ping => Ok (VStr "pong")
  | echo message => Ok (VStr ("Echo: " +:+ message))
  | _ => Raise (RuntimeError "Redis memory is not enabled.")
  end.

End Server.

(** The store is off. *)
Definition disabled (w : world) : Prop :=
  MEMORY_ENABLED w = false \/ redis_client w = None.

End Store.

(** * The numeric tool [normalize] *)

Module Numeric.

(** [len(arr)] as a float. *)
Definition float_of_len (n : nat) : float :=
  PrimFloat.of_uint63 (Uint63.of_Z (Z.of_nat n)).

(** [np.minimum] and [np.maximum] as the reductions apply them: the
    accumulator is kept when it compares as required or is NaN. *)
Definition minimum (acc x : float) : float :=
  if PrimFloat.leb acc x || PrimFloat.is_nan acc then acc else x.

Definition maximum (acc x : float) : float :=
  if PrimFloat.leb x acc || PrimFloat.is_nan acc then acc else x.

(** [np.min] and [np.max]; an empty array has no minimum. *)
Definition np_min (arr : list float) : result float :=
  match arr with
  | [] => Raise (ValueError "zero-size array to reduction operation minimum which has no identity")
  | a :: rest => Ok (fold_left minimum rest a)
  end.

Definition np_max (arr : list float) : result float :=
  match arr with
  | [] => Raise (ValueError "zero-size array to reduction operation maximum which has no identity")
  | a :: rest => Ok (fold_left maximum rest a)
  end.

Section Normalize.

(** [np.add.reduce]: the sum of an array. The order in which numpy
    adds the elements is its own, so the sum is left open here. *)
Variable np_sum : list float -> float.

(** [np.mean]: the sum divided by the count. *)
Definition np_mean (arr : list float) : float :=
  PrimFloat.div (np_sum arr) (float_of_len (length arr)).

(** [np.std]: the deviations from the mean, squared, summed, divided
    by the count, and the square root of that. *)
Definition np_std (arr : list float) : float :=
  let arrmean := np_mean arr in
  let x := map (fun a => PrimFloat.sub a arrmean) arr in
  let x := map (fun d => PrimFloat.mul d d) x in
  PrimFloat.sqrt (PrimFloat.div (np_sum x) (float_of_len (length arr))).

(** [normalize], on a list that [_ensure_list_of_numbers] has
    accepted; the tool with the check of its argument is
    [Checked.normalize]. *)
Definition normalize (values : list float) (method : string)
  : result (list float) :=
  let arr := values in
  if bool_decide (method = "zscore"%string) then
    let mean := np_mean arr in
    let std := np_std arr in
    if PrimFloat.eqb std 0%float then Ok (repeat 0%float (length arr))
    else Ok (map (fun x => PrimFloat.div (PrimFloat.sub x mean) std) arr)
  else if bool_decide (method = "minmax"%string) then
    match np_min arr, np_max arr with
    | Ok min_val, Ok max_val =>
        if PrimFloat.eqb max_val min_val then Ok (repeat 0.5%float (length arr))
        else Ok (map (fun x => PrimFloat.div (PrimFloat.sub x min_val)
                                 (PrimFloat.sub max_val min_val)) arr)
    | Raise e, _ => Raise e
    | _, Raise e => Raise e
    end
  else Raise (ValueError ("Unknown normalization method: " +:+ method)).

End Normalize.

(** The elements of a list are all equal, as [==] compares floats. *)
Definition all_equal (values : list float) : bool :=
  forallb (fun a => forallb (fun c => PrimFloat.eqb a c) values) values.

(** A sum that adds the elements in index order. For three equal
    elements every order of the additions gives this sum. *)
Definition sum_in_order (arr : list float) : float :=
  fold_left PrimFloat.add arr 0%float.

(** The binary64 float nearest to 0.1. *)
Definition tenth : float := 0x1.999999999999ap-4%float.

End Numeric.

(** * Streams with other line endings and headers *)

Module Streams.
Import Bytes Str Frame.

(** A line ending: CR LF, or LF alone. *)
Definition line_end (crlf : bool) : bytes := if crlf then [CR; LF] else [LF].

(** A line, given without its terminating LF, that does not end a
    header block: it has no LF inside and is neither empty nor a lone
    CR. *)
Definition is_block_line (l : bytes) : bool :=
  negb (existsb is_lf l)
  && negb (bool_decide (l = [])) && negb (bool_decide (l = [CR])).

End Streams.

(** * The keys of the tool log *)

Module ToolLog.
Import Store.

(** [func.__name__] of the tool functions. *)
Definition guarded_tool_name (g : guarded_tool) : string :=
  match g with
  | list_memory_keys => "list_memory_keys"
  | index_project_files => "index_project_files"
  | index_single_file => "index_single_file"
  | search_indexed_files => "search_indexed_files"
  | save_agent_snapshot => "save_agent_snapshot"
  | load_agent_snapshot => "load_agent_snapshot"
  | list_agent_snapshots => "list_agent_snapshots"
  | delete_agent_snapshot => "delete_agent_snapshot"
  | clear_all_agent_snapshots => "clear_all_agent_snapshots"
  | semantic_search_files => "semantic_search_files"
  | semantic_search_agents => "semantic_search_agents"
  | queue_task => "queue_task"
  | get_next_task => "get_next_task"
  | finish_task => "finish_task"
  | task_history => "task_history"
  | clear_task_history => "clear_task_history"
  end.

Definition tool_name (t : tool) : string :=
  match t with
  | ping => "ping"
  | echo _ => "echo"
  | set_memory _ _ => "set_memory"
  | get_memory _ => "get_memory"
  | delete_memory _ => "delete_memory"
  | other name _ => guarded_tool_name name
  end.

(** The key [f"tool_log:{time.time()}:{tool_name}"] of
    [_log_tool_call]; [now] is the text of [time.time()]. *)
Definition log_key (now : string) (t : tool) : string :=
  "tool_log:" +:+ now +:+ ":" +:+ tool_name t.

(** The key and the entry written for a call, for a clock that gives
    the time of the call and the JSON text of its entry. *)
Definition log_entry (clock entry : tool -> string) (t : tool) : string * string :=
  (log_key (clock t) t, entry t).

(** The store is on. *)
Definition enabled (w : world) : Prop :=
  MEMORY_ENABLED w = true /\ exists client, redis_client w = Some client.

End ToolLog.

(** * Flags read from the environment *)

Module Env.
Import Str.

(** A string of ASCII characters. *)
Definition is_ascii_str (s : string) : bool :=
  forallb (fun c => (N_of_ascii c <? 128)%N) (list_ascii_of_string s).

(** [_bool_from_env], for values of ASCII characters; [environ] is the
    environment of the process, [None] for a name is [os.getenv]
    returning [None]. *)
Definition _bool_from_env (environ : gmap string string) (name : string)
    (default : bool) : bool :=
  match environ !! name with
  | None => default
  | Some raw =>
      bool_decide
        (string_of_list_ascii (lower (strip (list_ascii_of_string raw)))
         ∈ ["1"; "true"; "yes"; "y"; "on"]%string)
  end.

End Env.

(** * The task queue *)

Module Tasks.

(** A task: the dictionary with the keys [id], [name], [payload],
    [queued_at], [status] and, once taken, [started_at]. *)
Record task : Type := Task {
  id : string;
  name : string;
  payload : Store.value;
  queued_at : float;
  status : string;
  started_at : option float;
}.

(** What the two tools return: [{"queued": True, "task": task}] and
    [{"task": task}], the task being [None] when the queue is empty. *)
Inductive answer : Type :=
| Queued (t : task)
| Next (t : option task).

(** The globals the tools test and the Redis list [task_queue], its
    left end first. The log entry written for each call goes under a
    key of its own and is not part of this state. *)
Record world : Type := World {
  MEMORY_ENABLED : bool;
  redis_client : option Store.Redis;
  task_queue : list string;
}.

Section Queue.

(** [json.dumps] and [json.loads] on tasks; [json.loads] raises on a
    text that is not JSON. *)
Variable json_dumps : task -> string.
Variable json_loads : string -> result task.

Definition guarded (f : world -> result answer * world) (w : world)
  : result answer * world :=
  match MEMORY_ENABLED w, redis_client w with
  | true, Some _ => f w
  | _, _ => (Raise (RuntimeError "Redis memory is not enabled."), w)
  end.

(** [queue_task]; [uuid4] is the text of [uuid.uuid4()] and [now] the
    value of [time.time()] for the call. The task goes to the right
    end of the list ([rpush]). *)
Definition queue_task (uuid4 : string) (now : float) (name : string)
    (payload : Store.value) (w : world) : result answer * world :=
  guarded (fun w =>
    let task := {| id := uuid4; name := name; payload := payload;
                   queued_at := now; status := "queued";
                   started_at := None |} in
    (Ok (Queued task),
     {| MEMORY_ENABLED := MEMORY_ENABLED w; redis_client := redis_client w;
        task_queue := task_queue w ++ [json_dumps task] |})) w.

(** [get_next_task]: the left end of the list is taken ([lpop]), then
    decoded; the task returned is marked as in progress. *)
Definition get_next_task (now : float) (w : world) : result answer * world :=
  guarded (fun w =>
    match task_queue w with
    | [] => (Ok (Next None), w)
    | raw :: queue =>
        let w' := {| MEMORY_ENABLED := MEMORY_ENABLED w;
                     redis_client := redis_client w; task_queue := queue |} in
        match json_loads raw with
        | Raise e => (Raise e, w')
        | Ok task =>
            (Ok (Next (Some {| id := id task; name := name task;
                               payload := payload task;
                               queued_at := queued_at task;
                               status := "in_progress";
                               started_at := Some now |})), w')
        end
    end) w.

(** The calls of the two tools, and calls served one after the other. *)
Inductive request : Type :=
| queue (uuid4 : string) (now : float) (name : string) (payload : Store.value)
| next (now : float).

Definition handle_request (r : request) (w : world) : result answer * world :=
  match r with
  | queue uuid4 now name payload => queue_task uuid4 now name payload w
  | next now => get_next_task now w
  end.

Fixpoint serve (rs : list request) (w : world) : list (result answer) * world :=
  match rs with
  | [] => ([], w)
  | r :: rs' =>
      let '(a, w1) := handle_request r w in
      let '(answers, w2) := serve rs' w1 in
      (a :: answers, w2)
  end.

End Queue.

(** The task [queue_task] makes for a call. *)
Definition queued (uuid4 : string) (now : float) (name : string)
    (payload : Store.value) : task :=
  {| id := uuid4; name := name; payload := payload; queued_at := now;
     status := "queued"; started_at := None |}.

(** The task as [get_next_task] returns it at time [now]. *)
Definition taken (now : float) (t : task) : task :=
  {| id := id t; name := name t; payload := payload t;
     queued_at := queued_at t; status := "in_progress";
     started_at := Some now |}.

End Tasks.

(** * The frame reader under the limits of the interpreter *)

Module Limits.
Import Bytes Str Frame.

(** The stream of [Bytes] serves every size, and [Str.int] parses
    every decimal string. The interpreter does neither: the size of
    [BufferedReader.read] is converted to a C [ssize_t], the bytes
    object for the result is allocated before the stream is read, and
    [int] refuses decimal strings with too many digits. Here
    [read_packet] and [reader] are given again over a stream and an
    [int] with these limits. *)

(** The largest [ssize_t] of a 64-bit interpreter. *)
Definition PY_SSIZE_T_MAX : Z := 2 ^ 63 - 1.

(** The bytes of a bytes object that are not its content, on a 64-bit
    interpreter; an object whose size with them would pass
    [PY_SSIZE_T_MAX] is refused before it is allocated. *)
Definition PyBytesObject_SIZE : Z := 33.

(** [sys.int_info.default_max_str_digits]. *)
Definition default_max_str_digits : nat := 4300.

(** The number of decimal digits in a string. *)
Definition digits (s : string) : nat :=
  length (filter (fun c => is_digit c = true) (list_ascii_of_string s)).

(** [int(s)] in base 10 with the default limit on the digits of the
    string: beyond it [int] raises [ValueError], as it does for a
    string that is no number. [None] stands for [ValueError]. *)
Definition int (s : string) : option Z :=
  if (default_max_str_digits <? digits s)%nat then None else Str.int s.

Section Stream.

(** The largest size for which the process can allocate a bytes
    object; it depends on the memory of the machine. *)
Variable max_alloc : Z.

(** [BufferedReader.read(size)]: a size outside [ssize_t] is rejected
    with [OverflowError] when the argument is converted, a size below
    -1 with [ValueError], -1 reads to end-of-stream; otherwise a bytes
    object of [size] bytes is allocated, which raises [OverflowError]
    for a size no bytes object can have and [MemoryError] when the
    process cannot allocate it, and up to [size] bytes are returned
    (fewer only at end-of-stream). *)
Definition read (size : Z) (stdin : bytes) : result (bytes * bytes) :=
  if (size <? - 2 ^ 63) || (PY_SSIZE_T_MAX <? size) then
    Raise (OtherError "OverflowError" "cannot fit 'int' into an index-sized integer")
  else if size <? -1 then Raise (ValueError "read length must be non-negative or -1")
  else if size =? -1 then Ok (stdin, [])
  else if PY_SSIZE_T_MAX - PyBytesObject_SIZE <? size then
    Raise (OtherError "OverflowError" "byte string is too large")
  else if max_alloc <? size then Raise (OtherError "MemoryError" "")
  else Ok (take (Z.to_nat size) stdin, drop (Z.to_nat size) stdin).

(** The part of [read_packet] after the header block. The call of
    [read] is outside every [try], so what it raises leaves
    [read_packet]. *)
Definition read_body (headers : gmap string string) (stdin : bytes)
  : option packet :=
  match headers !! "content-length"%string with
  | None => None
  | Some length_str =>
      if bool_decide (length_str = ""%string) then None
      else
        match int length_str with
        | None => None
        | Some len =>
            match read len stdin with
            | Raise e => Some (Raised e stdin)
            | Ok (body, rest) =>
                if bool_decide (body = []) || (Z.of_nat (length body) <? len)
                then Some (NoPacket rest)
                else Some (Body body rest)
            end
        end
  end.

(** [read_packet], as in [Frame]. *)
Fixpoint read_packet_loop (fuel : nat) (headers : gmap string string)
    (stdin : bytes) : option packet :=
  match fuel with
  | O => None
  | S fuel' =>
      let '(line, rest) := readline stdin in
      if bool_decide (line = []) then Some (NoPacket rest)
      else
        let line := normalize_eol line in
        if bool_decide (line = []) then
          match read_body headers rest with
          | Some p => Some p
          | None => read_packet_loop fuel' ∅ rest
          end
        else if has_colon line then
          let '(k, v) := split_colon line in
          read_packet_loop fuel' (<[header_key k := header_value v]> headers) rest
        else read_packet_loop fuel' headers rest
  end.

Definition read_packet (stdin : bytes) : option packet :=
  read_packet_loop (S (length stdin)) ∅ stdin.

(** [reader], as in [Frame]: an exception that leaves [read_packet]
    is caught by [except Exception] around the loop, which ends
    there. *)
Fixpoint reader_loop (fuel : nat) (stdin : bytes)
  : option (list bytes * reader_exit) :=
  match fuel with
  | O => None
  | S fuel' =>
      match read_packet stdin with
      | None => None
      | Some (NoPacket _) => Some ([], EndOfStream)
      | Some (Raised e _) => Some ([], ReaderError e)
      | Some (Body body rest) =>
          match reader_loop fuel' rest with
          | Some (bodies, ex) => Some (body :: bodies, ex)
          | None => None
          end
      end
  end.

Definition reader (stdin : bytes) : option (list bytes * reader_exit) :=
  reader_loop (S (length stdin)) stdin.

End Stream.

End Limits.

(** * The argument check of the numeric tools *)

Module Checked.

(** What [np.array(values, dtype=float).astype(float)] returns: the
    number of dimensions of the array, its shape as [str] prints it,
    and its elements. *)
Record ndarray : Type := { ndim : nat; shape : string; elements : list float }.

(** [str(exc)]: the message of an exception. *)
Definition str (exc : exn) : string :=
  match exc with
  | ValueError msg | RuntimeError msg | TimeoutError msg
  | AttributeError msg | OtherError _ msg => msg
  end.

Section Check.

(** The values a tool can be called with, and what the check asks of
    them: [isinstance(values, (list, tuple))], [type(values).__name__]
    and the conversion by numpy, which raises on what it cannot
    convert. *)
Variable Any : Type.
Variable is_list_or_tuple : Any -> bool.
Variable type_name : Any -> string.
Variable np_array : Any -> result ndarray.

Definition _ensure_list_of_numbers (values : Any) (param_name : string)
  : result (list float) :=
  if negb (is_list_or_tuple values) then
    Raise (ValueError (param_name +:+ " must be a list of numbers, got "
                       +:+ type_name values))
  else
    match np_array values with
    | Raise exc =>
        Raise (ValueError (param_name +:+ " must contain only numeric values: "
                           +:+ str exc))
    | Ok arr =>
        if bool_decide (ndim arr <> 1%nat) then
          Raise (ValueError (param_name +:+ " must be 1D (list of numbers), got shape "
                             +:+ shape arr))
        else Ok (elements arr)
    end.

Variable np_sum : list float -> float.

(** The tool [normalize] as it is called: the check of its argument,
    then [Numeric.normalize] on the array the check returns. *)
Definition normalize (values : Any) (method : string) : result (list float) :=
  match _ensure_list_of_numbers values "values" with
  | Raise e => Raise e
  | Ok arr => Numeric.normalize np_sum arr method
  end.

End Check.

End Checked.

(** * Properties *)

Module BytesFacts.
Import Bytes.

Lemma is_lf_true c : is_lf c = true <-> c = LF.
Proof. unfold is_lf. apply bool_decide_eq_true. Qed.

Lemma is_lf_false c : is_lf c = false <-> c <> LF.
Proof.
  rewrite <- is_lf_true. destruct (is_lf c); split; congruence.
Qed.

(** A line that ends with the first LF of the stream. *)
Lemma readline_line (l rest : bytes) :
  LF ∉ l -> readline (l ++ LF :: rest) = (l ++ [LF], rest).
Proof.
  induction l as [|c l IH]; intros Hl; simpl.
  - reflexivity.
  - apply not_elem_of_cons in Hl as [Hc Hl].
    apply not_eq_sym, is_lf_false in Hc. rewrite Hc, (IH Hl). reflexivity.
Qed.

Lemma readline_nil_iff (stdin : bytes) : (readline stdin).1 = [] <-> stdin = [].
Proof.
  destruct stdin as [|c s]; simpl; [tauto|].
  destruct (is_lf c); [|destruct (readline s)]; simpl; split; congruence.
Qed.

(** [readline] splits the stream. *)
Lemma readline_split (stdin : bytes) :
  (readline stdin).1 ++ (readline stdin).2 = stdin.
Proof.
  induction stdin as [|c s IH]; simpl; [reflexivity|].
  destruct (is_lf c); simpl; [reflexivity|].
  destruct (readline s) as [l r]; simpl in *. by rewrite IH.
Qed.

(** Reading a line from a non-empty stream consumes at least one byte. *)
Lemma readline_rest_lt (stdin : bytes) :
  stdin <> [] -> (length (readline stdin).2 < length stdin)%nat.
Proof.
  intros H. pose proof (readline_split stdin) as E.
  pose proof (readline_nil_iff stdin) as N.
  apply (f_equal length) in E. rewrite length_app in E.
  destruct ((readline stdin).1) as [|c l].
  - destruct H. by apply N.
  - simpl in E. lia.
Qed.

Lemma normalize_eol_crlf (l : bytes) : normalize_eol (l ++ [CR; LF]) = l.
Proof.
  unfold normalize_eol, endswith, chop. rewrite length_app. simpl.
  replace (length l + 2 - 2)%nat with (length l) by lia.
  rewrite drop_app_length, take_app_length. rewrite bool_decide_eq_true_2; done.
Qed.

End BytesFacts.

Module StrFacts.
Import Bytes Str.

Lemma uint_chars_digits d : Forall (fun c => is_digit c = true) (uint_chars d).
Proof. induction d; simpl; constructor; auto. Qed.

Lemma str_of_nat_digits n : Forall (fun c => is_digit c = true) (str_of_nat n).
Proof. apply uint_chars_digits. Qed.

Lemma to_uint_nonnil n : Nat.to_uint n <> Decimal.Nil.
Proof.
  rewrite <- (DecimalNat.Unsigned.of_to n) at 1.
  rewrite DecimalNat.Unsigned.to_of. apply DecimalFacts.unorm_nonnil.
Qed.

Lemma str_of_nat_nonempty n : str_of_nat n <> [].
Proof.
  unfold str_of_nat. pose proof (to_uint_nonnil n) as H.
  destruct (Nat.to_uint n); simpl; congruence.
Qed.

Lemma is_digit_bounds c :
  is_digit c = true -> (48 <= N_of_ascii c <= 57)%N.
Proof.
  unfold is_digit. intros H. apply andb_true_iff in H as [H1 H2].
  apply N.leb_le in H1, H2. lia.
Qed.

Lemma digit_not_space c : is_digit c = true -> is_space c = false.
Proof.
  intros H%is_digit_bounds. unfold is_space. simpl.
  apply orb_false_iff; split; apply andb_false_iff;
    right; apply N.leb_gt; lia.
Qed.

(** Stripping a string that neither starts nor ends with white space. *)
Lemma lstrip_id s : (forall c s', s = c :: s' -> is_space c = false) -> lstrip s = s.
Proof. destruct s as [|c s]; simpl; [done|]. intros H. by rewrite (H c s). Qed.

Lemma strip_no_space s :
  Forall (fun c => is_space c = false) s -> strip s = s.
Proof.
  intros H. unfold strip. rewrite (lstrip_id s).
  - rewrite lstrip_id, rev_involutive; [done|].
    intros c s' E. apply Forall_rev in H. rewrite E in H. by inversion H.
  - intros c s' ->. by inversion H.
Qed.

Lemma strip_space_cons c s :
  is_space c = true -> s <> [] ->
  Forall (fun c => is_space c = false) s -> strip (c :: s) = s.
Proof.
  intros Hc Hs H. unfold strip. simpl. rewrite Hc.
  by apply strip_no_space.
Qed.

(** [int] reads back what [str] printed. *)
Lemma int_digits_digit acc c v s :
  digit_val c = Some v -> int_digits acc (c :: s) = int_digits (10 * acc + v) s.
Proof.
  intros H. cbn [int_digits]. rewrite H.
  unfold digit_val, is_underscore in *.
  destruct (N.eqb_spec (N_of_ascii c) 95) as [E|]; [|done].
  rewrite E in H. discriminate.
Qed.

Lemma int_digits_uint d (acc : nat) :
  int_digits (Z.of_nat acc) (uint_chars d)
  = Some (Z.of_nat (Nat.of_uint_acc d acc)).
Proof.
  revert acc. induction d; intros acc; cbn [uint_chars Nat.of_uint_acc];
    [done|..];
    rewrite <- IHd; erewrite int_digits_digit by reflexivity;
    f_equal; rewrite Nat.tail_mul_spec;
    match goal with |- context [Z.of_N ?n] =>
      let v := eval vm_compute in (Z.of_N n) in change (Z.of_N n) with v
    end; lia.
Qed.

Lemma int_unsigned_uint d :
  d <> Decimal.Nil -> int_unsigned (uint_chars d) = Some (Z.of_nat (Nat.of_uint d)).
Proof.
  intros H. unfold Nat.of_uint.
  destruct d; [done|..]; cbn [uint_chars Nat.of_uint_acc int_unsigned];
    rewrite <- int_digits_uint; reflexivity.
Qed.

Lemma int_chars_str_of_nat n : int_chars (str_of_nat n) = Some (Z.of_nat n).
Proof.
  unfold int_chars. rewrite strip_no_space.
  2:{ eapply Forall_impl; [apply str_of_nat_digits|]. apply digit_not_space. }
  pose proof (str_of_nat_digits n) as D.
  pose proof (int_unsigned_uint (Nat.to_uint n) (to_uint_nonnil n)) as I.
  rewrite DecimalNat.Unsigned.of_to in I. fold (str_of_nat n) in I.
  destruct (str_of_nat n) as [|c s] eqn:E; [done|].
  inversion D as [|? ? Hc _]; subst. apply is_digit_bounds in Hc.
  destruct (N.eqb_spec (N_of_ascii c) 43); [lia|].
  destruct (N.eqb_spec (N_of_ascii c) 45); [lia|]. exact I.
Qed.

Lemma int_str_of_nat n :
  int (string_of_list_ascii (str_of_nat n)) = Some (Z.of_nat n).
Proof.
  unfold int. rewrite list_ascii_of_string_of_list_ascii.
  apply int_chars_str_of_nat.
Qed.

(** Encoding digits and decoding them again. *)
Lemma digit_byte_ascii7 c :
  is_digit c = true ->
  is_ascii7 (byte_of_ascii c) = true /\ ascii_of_byte (byte_of_ascii c) = c.
Proof.
  intros H. split; [|apply ascii_of_byte_of_ascii]. revert H.
  destruct c as [[] [] [] [] [] [] [] []]; vm_compute; congruence.
Qed.

End StrFacts.

Module FrameFacts.
Import Bytes Str Frame BytesFacts StrFacts.

(** *** Fuel: the reader is total and its result does not depend on
    the fuel once there is enough of it *)

Lemma read_packet_loop_total fuel headers stdin :
  (length stdin < fuel)%nat -> is_Some (read_packet_loop fuel headers stdin).
Proof.
  revert headers stdin. induction fuel as [|fuel IH]; intros h s Hlen; [lia|].
  cbn [read_packet_loop].
  pose proof (readline_rest_lt s) as Hlt. pose proof (readline_nil_iff s) as Hnil.
  destruct (readline s) as [line rest]. cbn [fst snd] in *.
  case_bool_decide as E; [by eexists|].
  assert (length rest < fuel)%nat as Hr.
  { assert (s <> []) as Hs by (intros Hs; apply E, Hnil, Hs).
    specialize (Hlt Hs). lia. }
  case_bool_decide.
  - destruct (read_body h rest); [by eexists|]. by apply IH.
  - destruct (has_colon _); [destruct (split_colon _)|]; by apply IH.
Qed.

Lemma read_packet_loop_mono fuel fuel' headers stdin p :
  read_packet_loop fuel headers stdin = Some p -> (fuel <= fuel')%nat ->
  read_packet_loop fuel' headers stdin = Some p.
Proof.
  revert fuel' headers stdin. induction fuel as [|fuel IH];
    intros fuel' h s Hp Hle; [done|].
  destruct fuel' as [|fuel']; [lia|]. cbn [read_packet_loop] in *.
  destruct (readline s) as [line rest].
  case_bool_decide; [done|]. case_bool_decide.
  - destruct (read_body h rest); [done|]. apply IH; [done|lia].
  - destruct (has_colon _); [destruct (split_colon _)|]; (apply IH; [done|lia]).
Qed.

(** A result obtained with any fuel is the result of [read_packet]. *)
Lemma read_packet_any fuel stdin p :
  read_packet_loop fuel ∅ stdin = Some p -> read_packet stdin = Some p.
Proof.
  intros Hp. unfold read_packet, read_packet_fuel.
  destruct (le_ge_dec fuel (S (length stdin))) as [Hle|Hge].
  - eapply read_packet_loop_mono; eauto.
  - destruct (read_packet_loop_total (S (length stdin)) ∅ stdin) as [q Hq]; [lia|].
    rewrite Hq. f_equal.
    pose proof (read_packet_loop_mono _ fuel _ _ _ Hq Hge) as Hq'. congruence.
Qed.

Lemma read_packet_total stdin : is_Some (read_packet stdin).
Proof. apply read_packet_loop_total. lia. Qed.

(** A body is returned only after input has been consumed. *)
Lemma read_body_rest headers stdin body rest :
  read_body headers stdin = Some (Body body rest) ->
  (length rest <= length stdin)%nat.
Proof.
  unfold read_body, read. intros H.
  destruct (headers !! _) as [v|]; [|done]. case_bool_decide; [done|].
  destruct (int v) as [len|]; [|done].
  destruct (len <? -1); [done|]. destruct (len =? -1).
  - destruct (_ || _); inversion H; subst. simpl. lia.
  - destruct (_ || _); inversion H; subst. rewrite length_drop. lia.
Qed.

Lemma read_packet_loop_rest fuel headers stdin body rest :
  read_packet_loop fuel headers stdin = Some (Body body rest) ->
  (length rest < length stdin)%nat.
Proof.
  revert headers stdin. induction fuel as [|fuel IH]; intros h s; [done|].
  cbn [read_packet_loop].
  pose proof (readline_rest_lt s) as Hlt. pose proof (readline_nil_iff s) as Hnil.
  destruct (readline s) as [line r]. cbn [fst snd] in *.
  case_bool_decide as E; [done|].
  assert (length r < length s)%nat as Hr.
  { apply Hlt. intros Hs. apply E, Hnil, Hs. }
  case_bool_decide.
  - destruct (read_body h r) as [p|] eqn:Eb.
    + intros [= ->]. apply read_body_rest in Eb. lia.
    + intros H'%IH. lia.
  - destruct (has_colon _); [destruct (split_colon _)|]; intros H'%IH; lia.
Qed.

Lemma reader_loop_total fuel stdin :
  (length stdin < fuel)%nat -> is_Some (reader_loop fuel stdin).
Proof.
  revert stdin. induction fuel as [|fuel IH]; intros s Hlen; [lia|].
  cbn [reader_loop]. destruct (read_packet_total s) as [p Hp]. rewrite Hp.
  destruct p as [body rest| |]; [|by eexists..].
  apply read_packet_loop_rest in Hp.
  destruct (IH rest) as [[bodies ex] Hr]; [lia|]. rewrite Hr. by eexists.
Qed.

Lemma reader_loop_mono fuel fuel' stdin r :
  reader_loop fuel stdin = Some r -> (fuel <= fuel')%nat ->
  reader_loop fuel' stdin = Some r.
Proof.
  revert fuel' stdin r. induction fuel as [|fuel IH];
    intros fuel' s r Hr Hle; [done|].
  destruct fuel' as [|fuel']; [lia|]. cbn [reader_loop] in *.
  destruct (read_packet s) as [[body rest| |]|]; try done.
  destruct (reader_loop fuel rest) as [[bodies ex]|] eqn:E; [|done].
  rewrite (IH fuel' rest (bodies, ex) E); [done|lia].
Qed.

Lemma reader_any fuel stdin r :
  reader_loop fuel stdin = Some r -> reader stdin = Some r.
Proof.
  intros Hr. unfold reader.
  destruct (le_ge_dec fuel (S (length stdin))) as [Hle|Hge].
  - eapply reader_loop_mono; eauto.
  - destruct (reader_loop_total (S (length stdin)) stdin) as [q Hq]; [lia|].
    rewrite Hq. f_equal.
    pose proof (reader_loop_mono _ fuel _ _ Hq Hge) as Hq'. congruence.
Qed.

Lemma reader_total stdin : is_Some (reader stdin).
Proof. apply reader_loop_total. lia. Qed.

(** One step of the reader loop, without fuel. *)
Lemma reader_body stdin body rest bodies ex :
  read_packet stdin = Some (Body body rest) ->
  reader rest = Some (bodies, ex) ->
  reader stdin = Some (body :: bodies, ex).
Proof.
  intros Hp Hr. apply (reader_any (S (S (length rest)))).
  cbn [reader_loop]. rewrite Hp. unfold reader in Hr.
  cbn [reader_loop] in Hr. by rewrite Hr.
Qed.

Lemma reader_no_packet stdin rest :
  read_packet stdin = Some (NoPacket rest) -> reader stdin = Some ([], EndOfStream).
Proof. intros Hp. unfold reader. cbn [reader_loop]. by rewrite Hp. Qed.

Lemma reader_raised stdin e rest :
  read_packet stdin = Some (Raised e rest) -> reader stdin = Some ([], ReaderError e).
Proof. intros Hp. unfold reader. cbn [reader_loop]. by rewrite Hp. Qed.

(** *** The header line written by [writer] *)

Lemma content_length_header_line n :
  content_length_header n = header_line n ++ [CR; LF] ++ [CR; LF].
Proof. reflexivity. Qed.

Lemma encode_digits_no_lf s :
  Forall (fun c => is_digit c = true) s -> LF ∉ encode_ascii s.
Proof.
  induction 1 as [|c s Hc _ IH]; simpl; [apply not_elem_of_nil|].
  apply not_elem_of_cons; split; [|done].
  intros E. apply (f_equal ascii_of_byte) in E.
  rewrite ascii_of_byte_of_ascii in E. subst c. discriminate.
Qed.

Lemma decode_encode_digits s :
  Forall (fun c => is_digit c = true) s ->
  decode_ascii_ignore (encode_ascii s) = s.
Proof.
  unfold decode_ascii_ignore.
  induction 1 as [|c s Hc _ IH]; simpl; [done|].
  destruct (digit_byte_ascii7 c Hc) as [H7 Hb].
  rewrite filter_cons_True by done. simpl. by rewrite Hb, IH.
Qed.

Lemma header_line_no_lf n : LF ∉ header_line n.
Proof.
  unfold header_line, encode_ascii. rewrite map_app. apply not_elem_of_app; split.
  - vm_compute. intros H. repeat (apply elem_of_cons in H as [H|H]; [discriminate|]).
    by apply elem_of_nil in H.
  - apply encode_digits_no_lf, str_of_nat_digits.
Qed.

Lemma header_line_split n :
  header_line n <> [] /\ has_colon (header_line n) = true /\
  split_colon (header_line n)
  = (b "Content-Length", encode_ascii (" "%char :: str_of_nat n)).
Proof. repeat split; discriminate || reflexivity. Qed.

Lemma header_key_content_length :
  header_key (b "Content-Length") = "content-length"%string.
Proof. reflexivity. Qed.

Lemma header_value_digits n :
  header_value (encode_ascii (" "%char :: str_of_nat n))
  = string_of_list_ascii (str_of_nat n).
Proof.
  unfold header_value. f_equal.
  change (encode_ascii (" "%char :: str_of_nat n))
    with (byte_of_ascii " " :: encode_ascii (str_of_nat n)).
  unfold decode_ascii_ignore. rewrite filter_cons_True by reflexivity.
  change (strip (" "%char :: decode_ascii_ignore (encode_ascii (str_of_nat n)))
          = str_of_nat n).
  rewrite decode_encode_digits by apply str_of_nat_digits.
  apply strip_space_cons; [reflexivity|apply str_of_nat_nonempty|].
  eapply Forall_impl; [apply str_of_nat_digits|]. apply digit_not_space.
Qed.

Lemma str_of_nat_string_nonempty n :
  string_of_list_ascii (str_of_nat n) <> ""%string.
Proof.
  pose proof (str_of_nat_nonempty n). destruct (str_of_nat n); simpl; congruence.
Qed.

Lemma read_body_declared headers n stdin :
  read_body (<["content-length"%string := string_of_list_ascii (str_of_nat n)]> headers) stdin
  = Some (after_header n stdin).
Proof.
  unfold read_body. rewrite lookup_insert_eq.
  rewrite bool_decide_eq_false_2 by apply str_of_nat_string_nonempty.
  rewrite int_str_of_nat. unfold read.
  destruct (Z.ltb_spec (Z.of_nat n) (-1)); [lia|].
  destruct (Z.eqb_spec (Z.of_nat n) (-1)); [lia|].
  rewrite Nat2Z.id. unfold after_header. by destruct (_ || _).
Qed.

(** The two lines of a header written by [writer], whatever was
    collected in [headers] before. *)
Lemma read_packet_loop_header fuel headers n stdin :
  read_packet_loop (S (S fuel)) headers (content_length_header n ++ stdin)
  = Some (after_header n stdin).
Proof.
  rewrite content_length_header_line.
  replace ((header_line n ++ [CR; LF] ++ [CR; LF]) ++ stdin)
    with ((header_line n ++ [CR]) ++ LF :: ([CR] ++ LF :: stdin))
    by (rewrite <- !app_assoc; reflexivity).
  cbn [read_packet_loop]. rewrite readline_line.
  2:{ apply not_elem_of_app; split; [apply header_line_no_lf|].
      intros H. apply list_elem_of_singleton in H. discriminate. }
  rewrite <- app_assoc. change ([CR] ++ [LF]) with [CR; LF].
  rewrite normalize_eol_crlf.
  destruct (header_line_split n) as (Hne & Hcolon & Hsplit).
  rewrite (bool_decide_eq_false_2 (header_line n ++ [CR; LF] = [])).
  2:{ destruct (header_line n); discriminate. }
  rewrite bool_decide_eq_false_2 by done.
  rewrite Hcolon, Hsplit, header_key_content_length, header_value_digits.
  rewrite readline_line.
  2:{ intros H. apply list_elem_of_singleton in H. discriminate. }
  change (normalize_eol ([CR] ++ [LF])) with (@nil byte).
  rewrite (bool_decide_eq_false_2 ([CR] ++ [LF] = [])) by discriminate.
  rewrite (bool_decide_eq_true_2 (@nil byte = [])) by done.
  by rewrite read_body_declared.
Qed.

Lemma after_header_payload (payload rest : bytes) :
  payload <> [] ->
  after_header (length payload) (payload ++ rest) = Body payload rest.
Proof.
  intros Hne. unfold after_header.
  rewrite take_app_length, drop_app_length.
  rewrite bool_decide_eq_false_2 by done.
  destruct (Z.ltb_spec (Z.of_nat (length payload)) (Z.of_nat (length payload)));
    [lia|done].
Qed.

Lemma after_header_truncated n (partial : bytes) :
  (length partial < n)%nat -> after_header n partial = NoPacket [].
Proof.
  intros Hlt. unfold after_header.
  rewrite take_ge, drop_ge by lia.
  destruct (Z.ltb_spec (Z.of_nat (length partial)) (Z.of_nat n)); [|lia].
  by rewrite orb_true_r.
Qed.

(** A complete frame with a non-empty payload is returned. *)
Lemma read_packet_loop_frame fuel headers (payload rest : bytes) :
  payload <> [] ->
  read_packet_loop (S (S fuel)) headers (frame payload ++ rest)
  = Some (Body payload rest).
Proof.
  intros Hne. unfold frame, header. rewrite <- app_assoc.
  rewrite read_packet_loop_header. by rewrite after_header_payload.
Qed.

(** *** Noise before a header block *)

Lemma normalize_eol_lf (l : bytes) :
  exists l', normalize_eol (l ++ [LF]) = l' /\ (l = l' \/ l = l' ++ [CR]).
Proof.
  destruct l as [|c0 l0] using rev_ind; [by exists []; split; [|left]|].
  clear IHl0. destruct (decide (c0 = CR)) as [->|Hc].
  - exists l0. rewrite <- app_assoc. split; [apply normalize_eol_crlf|by right].
  - exists (l0 ++ [c0]). split; [|by left].
    unfold normalize_eol, endswith, chop. rewrite !length_app. simpl.
    replace (length l0 + 1 + 1 - 2)%nat with (length l0) by lia.
    replace (length l0 + 1 + 1 - 1)%nat with (length (l0 ++ [c0]))
      by (rewrite length_app; simpl; lia).
    rewrite <- (app_assoc l0), drop_app_length. simpl.
    rewrite bool_decide_eq_false_2 by congruence.
    change (l0 ++ [c0; LF]) with (l0 ++ [c0] ++ [LF]).
    rewrite (app_assoc l0), drop_app_length, take_app_length.
    by rewrite bool_decide_eq_true_2.
Qed.

Lemma has_colon_app l1 l2 : has_colon (l1 ++ l2) = has_colon l1 || has_colon l2.
Proof. apply existsb_app. Qed.

Lemma split_colon_app l1 l2 :
  has_colon l1 = true -> (split_colon (l1 ++ l2)).1 = (split_colon l1).1.
Proof.
  induction l1 as [|c l1 IH]; simpl; [done|].
  destruct (is_colon c); simpl; [done|]. intros H. specialize (IH H).
  destruct (split_colon (l1 ++ l2)), (split_colon l1). simpl in *. by rewrite IH.
Qed.

Lemma is_noise_line_spec l :
  is_noise_line l = true ->
  (LF ∉ l) /\
  (has_colon l = true ->
   header_key (split_colon l).1 <> "content-length"%string).
Proof.
  unfold is_noise_line. intros [H1 H2]%andb_true_iff. split.
  - intros Hin. apply negb_true_iff in H1.
    assert (existsb is_lf l = true) as E; [|congruence].
    apply existsb_exists. exists LF. split; [by apply list_elem_of_In|].
    by apply is_lf_true.
  - intros Hc. rewrite Hc in H2. simpl in H2.
    apply negb_true_iff, bool_decide_eq_false in H2. exact H2.
Qed.

(** Reading one line of noise leaves a dictionary without
    [content-length]. *)
Lemma read_packet_loop_noise_line l (headers : gmap string string) :
  is_noise_line l = true ->
  headers !! "content-length"%string = None ->
  exists headers' : gmap string string,
    headers' !! "content-length"%string = None /\
    forall fuel rest,
      read_packet_loop (S fuel) headers (l ++ LF :: rest)
      = read_packet_loop fuel headers' rest.
Proof.
  intros [Hlf Hkey]%is_noise_line_spec Hh.
  destruct (normalize_eol_lf l) as (l' & Hn & Hl').
  destruct (decide (l' = [])) as [->|Hne].
  { exists ∅. split; [apply lookup_empty|]. intros fuel rest.
    cbn [read_packet_loop]. rewrite readline_line by done. rewrite Hn.
    rewrite bool_decide_eq_false_2 by (destruct l; discriminate).
    rewrite bool_decide_eq_true_2 by done.
    unfold read_body. by rewrite Hh. }
  destruct (has_colon l') eqn:Hc.
  - assert (has_colon l = true /\ (split_colon l).1 = (split_colon l').1)
      as [Hcl Hs].
    { destruct Hl' as [->| ->]; [done|].
      rewrite has_colon_app, Hc, split_colon_app; done. }
    exists (<[header_key (split_colon l').1 := header_value (split_colon l').2]> headers).
    split.
    { rewrite lookup_insert_ne; [done|]. rewrite <- Hs. by apply Hkey. }
    intros fuel rest. cbn [read_packet_loop]. rewrite readline_line by done.
    rewrite Hn. rewrite bool_decide_eq_false_2 by (destruct l; discriminate).
    rewrite bool_decide_eq_false_2 by done. rewrite Hc.
    by destruct (split_colon l').
  - exists headers. split; [done|]. intros fuel rest.
    cbn [read_packet_loop]. rewrite readline_line by done.
    rewrite Hn. rewrite bool_decide_eq_false_2 by (destruct l; discriminate).
    rewrite bool_decide_eq_false_2 by done. by rewrite Hc.
Qed.

Lemma read_packet_loop_noise garbage (headers : gmap string string) :
  Forall (fun l => is_noise_line l = true) garbage ->
  headers !! "content-length"%string = None ->
  exists headers' : gmap string string,
    headers' !! "content-length"%string = None /\
    forall fuel stdin,
      read_packet_loop (length garbage + fuel) headers (noise garbage ++ stdin)
      = read_packet_loop fuel headers' stdin.
Proof.
  intros Hg. revert headers.
  induction Hg as [|l garbage Hl _ IH]; intros h Hh.
  - exists h. split; [done|]. reflexivity.
  - destruct (read_packet_loop_noise_line l h Hl Hh) as (h1 & Hh1 & Hstep).
    destruct (IH h1 Hh1) as (h2 & Hh2 & Hrest).
    exists h2. split; [done|]. intros fuel stdin.
    unfold noise. cbn [map concat length Nat.add].
    rewrite <- !app_assoc. cbn [app]. rewrite Hstep. apply Hrest.
Qed.

(** Noise in front of a stream whose first packet does not depend on
    the headers collected before it. *)
Lemma read_packet_noise garbage stdin p :
  Forall (fun l => is_noise_line l = true) garbage ->
  (forall headers, read_packet_loop 2 headers stdin = Some p) ->
  read_packet (noise garbage ++ stdin) = Some p.
Proof.
  intros Hg Hp.
  destruct (read_packet_loop_noise garbage ∅ Hg (lookup_empty _))
    as (h' & _ & Hstep).
  apply (read_packet_any (length garbage + 2)). rewrite Hstep. apply Hp.
Qed.

Lemma read_packet_frame (payload rest : bytes) :
  payload <> [] -> read_packet (frame payload ++ rest) = Some (Body payload rest).
Proof.
  intros Hne. apply (read_packet_any 2). by apply read_packet_loop_frame.
Qed.

Lemma reader_nil : reader [] = Some ([], EndOfStream).
Proof. reflexivity. Qed.

(** The reader loop on a sequence of complete frames followed by a
    stream on which it is known. *)
Lemma reader_frames payloads stdin bodies ex :
  Forall (fun payload => payload <> []) payloads ->
  reader stdin = Some (bodies, ex) ->
  reader (writer payloads ++ stdin) = Some (payloads ++ bodies, ex).
Proof.
  intros Hp Hr. induction Hp as [|payload payloads Hne _ IH]; [done|].
  unfold writer in *. cbn [map concat]. rewrite <- app_assoc.
  eapply reader_body; [by apply read_packet_frame|]. exact IH.
Qed.

End FrameFacts.

(** ** The frame codec: round trip, noise, truncation, bad lengths *)

Module FrameSpec.
Import Bytes Str Frame BytesFacts FrameFacts.

(** X21. The round trip where the code performs it: for every
    non-empty payload, the frame that [writer] emits for it is decoded by
    [read_packet] to exactly that payload, with nothing left on the
    stream, and the reader loop hands over that payload and then ends
    at end-of-stream. *)
Theorem roundtrip_nonempty (payload : bytes) :
  payload <> [] ->
  read_packet (frame payload) = Some (Body payload [])
  /\ reader (frame payload) = Some ([payload], EndOfStream).
Proof.
  intros Hne.
  assert (read_packet (frame payload) = Some (Body payload [])) as Hp.
  { rewrite <- (app_nil_r (frame payload)). by apply read_packet_frame. }
  split; [done|]. eapply reader_body; [exact Hp|apply reader_nil].
Qed.

Lemma roundtrip_nonempty_witness :
  b "A" <> []
  /\ read_packet (frame (b "A")) = Some (Body (b "A") [])
  /\ reader (frame (b "A")) = Some ([b "A"], EndOfStream).
Proof. split; [discriminate|]. apply roundtrip_nonempty. discriminate. Defined.

(** C2, the code at the failing input. The frame that [writer] emits
    for the empty payload is [Content-Length: 0] and the blank line.
    [read_packet] reads its zero bytes, which is the whole body, and
    then takes the body for a truncated one, because its test for
    truncation begins with [not body]: it returns [None], the value it
    returns at end-of-stream, and not the payload. *)
Lemma roundtrip_empty_payload :
  frame [] = b "Content-Length: 0" ++ [CR; LF; CR; LF]
  /\ read_packet (frame []) = Some (NoPacket [])
  /\ read_packet (frame []) <> Some (Body [] []).
Proof. vm_compute. repeat split. discriminate. Qed.

(** A [content-length] value that [int] rejects makes [read_packet]
    scan for the next block. *)
Lemma read_body_unparsable (headers : gmap string string) v stdin :
  headers !! "content-length"%string = Some v -> int v = None ->
  read_body headers stdin = None.
Proof.
  intros Hv Hi. unfold read_body. rewrite Hv, Hi. by case_bool_decide.
Qed.

(** A [content-length] value that [int] reads as a number below -1 is
    not skipped: the body read raises. *)
Lemma read_body_negative (headers : gmap string string) v len stdin :
  headers !! "content-length"%string = Some v -> v <> ""%string ->
  int v = Some len -> len < -1 ->
  read_body headers stdin
  = Some (Raised (ValueError "read length must be non-negative or -1") stdin).
Proof.
  intros Hv Hne Hi Hlen. unfold read_body, read. rewrite Hv, Hi.
  rewrite bool_decide_eq_false_2 by done.
  by destruct (Z.ltb_spec len (-1)); [|lia].
Qed.

Example read_packet_skips_abc :
  read_packet (b "Content-Length: abc" ++ [CR; LF; CR; LF] ++ frame (b "hello"))
  = Some (Body (b "hello") []).
Proof. vm_compute. reflexivity. Qed.

(** C3, the code at the failing inputs. The value [-5] is accepted by
    [int]; the body read that follows is rejected by the stream with
    [ValueError], which leaves [read_packet] and ends the reader loop
    through its handler. The value [-1] is accepted as well and makes
    [read_packet] return everything up to end-of-stream as a body. *)
Theorem negative_content_length :
  read_packet (b "Content-Length: -5" ++ [CR; LF; CR; LF] ++ b "hello")
  = Some (Raised (ValueError "read length must be non-negative or -1") (b "hello"))
  /\ reader (b "Content-Length: -5" ++ [CR; LF; CR; LF] ++ b "hello")
     = Some ([], ReaderError (ValueError "read length must be non-negative or -1"))
  /\ read_packet (b "Content-Length: -1" ++ [CR; LF; CR; LF] ++ b "hello")
     = Some (Body (b "hello") [])
  /\ reader (b "Content-Length: -1" ++ [CR; LF; CR; LF] ++ b "hello")
     = Some ([b "hello"], EndOfStream).
Proof. vm_compute. repeat split. Qed.

(** X18. For every sequence of noise lines (LF-terminated lines that
    have no colon, or are headers whose key is not [content-length])
    followed by frames with non-empty payloads, the reader loop hands
    over exactly the payloads, in order, and ends at end-of-stream. *)
Theorem noise_then_frames (garbage payloads : list bytes) :
  Forall (fun l => is_noise_line l = true) garbage ->
  Forall (fun payload => payload <> []) payloads ->
  reader (noise garbage ++ writer payloads) = Some (payloads, EndOfStream).
Proof.
  intros Hg Hp. destruct Hp as [|payload payloads Hne Hp].
  - eapply reader_no_packet. apply read_packet_noise; [done|]. reflexivity.
  - unfold writer. cbn [map concat]. fold (writer payloads).
    eapply reader_body.
    + apply read_packet_noise; [done|]. intros h.
      by apply read_packet_loop_frame.
    + pose proof (reader_frames payloads [] [] EndOfStream Hp reader_nil) as H.
      by rewrite !app_nil_r in H.
Qed.

Lemma noise_then_frames_witness :
  reader (b "JUNK" ++ [LF] ++ frame (b "A") ++ frame (b "B"))
  = Some ([b "A"; b "B"], EndOfStream).
Proof.
  change (b "JUNK" ++ [LF] ++ frame (b "A") ++ frame (b "B"))
    with (noise [b "JUNK"] ++ frame (b "A") ++ frame (b "B") ++ []).
  change (frame (b "A") ++ frame (b "B") ++ []) with (writer [b "A"; b "B"]).
  apply noise_then_frames.
  - repeat constructor.
  - repeat constructor; discriminate.
Defined.

(** C4, the code at the failing input. A line of noise, the frame of
    the empty payload and the frame of [B]: [read_packet] skips the
    noise, reads the complete frame of the empty payload and returns
    [None] for it, because its test for truncation begins with
    [not body]. The reader loop takes [None] for end-of-stream and
    stops: it hands over nothing, and the frame of [B] is never
    read. *)
Lemma noise_then_empty_frame :
  is_noise_line (b "JUNK") = true
  /\ reader (noise [b "JUNK"] ++ writer [ []; b "B" ]) = Some ([], EndOfStream)
  /\ reader (noise [b "JUNK"] ++ writer [ []; b "B" ])
     <> Some ([ []; b "B" ], EndOfStream).
Proof. vm_compute. repeat split. discriminate. Qed.

End FrameSpec.

(** ** The frame reader under the limits of the interpreter *)

Module LimitsFacts.
Import Bytes Str Frame BytesFacts StrFacts FrameFacts.

(** Within the limits the stream of [Limits] is the stream of
    [Bytes], and [Limits.int] is [Str.int]. *)
Lemma limits_read_within max_alloc size stdin :
  -1 <= size -> size <= max_alloc ->
  size <= Limits.PY_SSIZE_T_MAX - Limits.PyBytesObject_SIZE ->
  Limits.read max_alloc size stdin = Bytes.read size stdin.
Proof.
  unfold Limits.read, Bytes.read, Limits.PY_SSIZE_T_MAX, Limits.PyBytesObject_SIZE.
  intros H1 H2 H3.
  destruct (Z.ltb_spec size (- 2 ^ 63)); [lia|].
  destruct (Z.ltb_spec (2 ^ 63 - 1) size); [lia|]. cbn [orb].
  destruct (Z.ltb_spec size (-1)); [lia|].
  destruct (Z.eqb_spec size (-1)); [done|].
  destruct (Z.ltb_spec (2 ^ 63 - 1 - 33) size); [lia|].
  destruct (Z.ltb_spec max_alloc size); [lia|done].
Qed.

Lemma limits_int_within s :
  (Limits.digits s <= Limits.default_max_str_digits)%nat ->
  Limits.int s = Str.int s.
Proof.
  intros H. unfold Limits.int.
  destruct (Nat.ltb_spec Limits.default_max_str_digits (Limits.digits s)); [lia|done].
Qed.

Lemma digits_str_of_nat n :
  Limits.digits (string_of_list_ascii (str_of_nat n)) = length (str_of_nat n).
Proof.
  unfold Limits.digits. rewrite list_ascii_of_string_of_list_ascii. f_equal.
  pose proof (str_of_nat_digits n) as H.
  induction H as [|c s Hc _ IH]; [done|].
  rewrite filter_cons_True by done. by rewrite IH.
Qed.

Lemma limits_int_str_of_nat n :
  (length (str_of_nat n) <= Limits.default_max_str_digits)%nat ->
  Limits.int (string_of_list_ascii (str_of_nat n)) = Some (Z.of_nat n).
Proof.
  intros H. rewrite limits_int_within by (by rewrite digits_str_of_nat).
  apply int_str_of_nat.
Qed.

(** The two lines of a header written by [writer]. *)
Lemma limits_loop_header max_alloc fuel headers n stdin :
  Limits.read_packet_loop max_alloc (S (S fuel)) headers
    (content_length_header n ++ stdin)
  = match Limits.read_body max_alloc
            (<["content-length"%string := string_of_list_ascii (str_of_nat n)]> headers)
            stdin with
    | Some p => Some p
    | None => Limits.read_packet_loop max_alloc fuel ∅ stdin
    end.
Proof.
  rewrite content_length_header_line.
  replace ((header_line n ++ [CR; LF] ++ [CR; LF]) ++ stdin)
    with ((header_line n ++ [CR]) ++ LF :: ([CR] ++ LF :: stdin))
    by (rewrite <- !app_assoc; reflexivity).
  cbn [Limits.read_packet_loop]. rewrite readline_line.
  2:{ apply not_elem_of_app; split; [apply header_line_no_lf|].
      intros H. apply list_elem_of_singleton in H. discriminate. }
  rewrite <- app_assoc. change ([CR] ++ [LF]) with [CR; LF].
  rewrite normalize_eol_crlf.
  destruct (header_line_split n) as (Hne & Hcolon & Hsplit).
  rewrite (bool_decide_eq_false_2 (header_line n ++ [CR; LF] = [])).
  2:{ destruct (header_line n); discriminate. }
  rewrite bool_decide_eq_false_2 by done.
  rewrite Hcolon, Hsplit, header_key_content_length, header_value_digits.
  rewrite readline_line.
  2:{ intros H. apply list_elem_of_singleton in H. discriminate. }
  change (normalize_eol ([CR] ++ [LF])) with (@nil byte).
  rewrite (bool_decide_eq_false_2 ([CR] ++ [LF] = [])) by discriminate.
  by rewrite (bool_decide_eq_true_2 (@nil byte = [])) by done.
Qed.

(** After a header that declares [n] bytes, the body read is
    [read(n)]. *)
Lemma limits_read_body_declared max_alloc headers n stdin :
  (length (str_of_nat n) <= Limits.default_max_str_digits)%nat ->
  Limits.read_body max_alloc
    (<["content-length"%string := string_of_list_ascii (str_of_nat n)]> headers) stdin
  = match Limits.read max_alloc (Z.of_nat n) stdin with
    | Raise e => Some (Raised e stdin)
    | Ok (body, rest) =>
        if bool_decide (body = []) || (Z.of_nat (length body) <? Z.of_nat n)
        then Some (NoPacket rest) else Some (Body body rest)
    end.
Proof.
  intros Hd. unfold Limits.read_body. rewrite lookup_insert_eq.
  rewrite bool_decide_eq_false_2 by apply str_of_nat_string_nonempty.
  by rewrite limits_int_str_of_nat.
Qed.

(** [read_packet] on a stream that begins with such a header, when the
    body read settles the call. *)
Lemma limits_read_packet_declared max_alloc n stdin p :
  Limits.read_body max_alloc
    (<["content-length"%string := string_of_list_ascii (str_of_nat n)]> ∅) stdin = Some p ->
  Limits.read_packet max_alloc (content_length_header n ++ stdin) = Some p.
Proof.
  intros Hb. unfold Limits.read_packet.
  assert (2 <= length (content_length_header n ++ stdin))%nat as Hlen.
  { unfold content_length_header. rewrite !length_app. simpl. lia. }
  destruct (length (content_length_header n ++ stdin)) as [|[|k]]; [lia|lia|].
  rewrite limits_loop_header. by rewrite Hb.
Qed.

Lemma limits_reader_no_packet max_alloc stdin rest :
  Limits.read_packet max_alloc stdin = Some (NoPacket rest) ->
  Limits.reader max_alloc stdin = Some ([], EndOfStream).
Proof. intros H. unfold Limits.reader. cbn [Limits.reader_loop]. by rewrite H. Qed.


End LimitsFacts.

Module LimitsSpec.
Import Bytes Str Frame.

(** C5, the code at the failing input. A header that declares 2^63
    bytes, followed by the five bytes [hello] and end-of-stream, is a
    frame with a truncated body. [read_packet] passes the declared
    length to [read], which raises [OverflowError] before any byte of
    the body is read: the exception leaves [read_packet], which does
    not return [None], and [reader] ends in its handler for
    exceptions. This holds whatever memory the process has. *)
Theorem truncated_body_beyond_ssize_t (max_alloc : Z) :
  let stdin := b "Content-Length: 9223372036854775808" ++ [CR; LF; CR; LF] ++ b "hello" in
  let exc := OtherError "OverflowError" "cannot fit 'int' into an index-sized integer" in
  Limits.read_packet max_alloc stdin = Some (Raised exc (b "hello"))
  /\ Limits.read_packet max_alloc stdin <> Some (NoPacket [])
  /\ Limits.reader max_alloc stdin = Some ([], ReaderError exc).
Proof.
  assert (Limits.read_packet max_alloc
            (b "Content-Length: 9223372036854775808" ++ [CR; LF; CR; LF] ++ b "hello")
          = Some (Raised (OtherError "OverflowError"
                            "cannot fit 'int' into an index-sized integer") (b "hello")))
    as H by (vm_compute; reflexivity).
  cbv zeta. split; [exact H|]. split.
  - rewrite H. discriminate.
  - unfold Limits.reader. cbn [Limits.reader_loop]. by rewrite H.
Qed.

End LimitsSpec.

Module EmbedSpec.
Import Embed.

(** Once the model is cached, calls return it and change nothing. *)
Lemma calls_ready ctor (w : world) (model : handle) (n : nat) :
  _embed_model w = Some model ->
  calls ctor n w = (repeat (Ok model) n, w).
Proof.
  intros Hm. induction n as [|n IH]; [reflexivity|].
  cbn [calls repeat]. unfold _get_embed_model. rewrite Hm. by rewrite IH.
Qed.

(** C1, the code at the failing input. With a constructor that times
    out on every call, [_get_embed_model] calls it once, sleeps never,
    and lets the [TimeoutError] through; the retry logic that
    [test_embedding_timeout.py] simulates for it makes three calls,
    sleeps 1 s and 2 s between them and raises the exhaustion error with
    the number of attempts and the time-out. *)
Theorem timeout_not_retried :
  _get_embed_model always_times_out initial
  = (Raise (TimeoutError "Operation timed out after 300s"),
     {| _embed_model := None; constructed := 1; slept := [] |})
  /\ retry_logic always_times_out 300 initial
     = (Raise (RuntimeError "Failed to load embedding model after 3 attempts (timeout: 300s). Try increasing MCP_EMBED_LOAD_TIMEOUT or check your network connection."),
        {| _embed_model := None; constructed := 3; slept := [1; 2] |}).
Proof. split; vm_compute; reflexivity. Qed.

(** C8. From a state without a cached model, if the constructor call
    that is due succeeds, then in every sequence of calls of
    [_get_embed_model] that starts there each call returns the same
    handle, the first call included, and the constructor has been
    called exactly once when the sequence ends. *)
Theorem ready_is_cached ctor (w : world) (n : nat) :
  _embed_model w = None ->
  ctor (constructed w) = Loaded ->
  calls ctor (S n) w
  = (repeat (Ok (constructed w)) (S n),
     {| _embed_model := Some (constructed w);
        constructed := S (constructed w); slept := slept w |}).
Proof.
  intros Hnone Hload. cbn [calls repeat].
  unfold _get_embed_model, construct. rewrite Hnone, Hload.
  cbn [construct fst snd constructed slept].
  pose proof (calls_ready ctor
                {| _embed_model := Some (constructed w);
                   constructed := S (constructed w); slept := slept w |}
                (constructed w) n eq_refl) as Hready.
  unfold handle in *. by rewrite Hready.
Qed.

Lemma ready_is_cached_witness :
  calls (fun _ => Loaded) 100 initial
  = (repeat (Ok 0%nat) 100,
     {| _embed_model := Some 0%nat; constructed := 1; slept := [] |}).
Proof. apply (ready_is_cached (fun _ => Loaded) initial 99); reflexivity. Defined.

(** C9. From a state without a cached model, if the constructor call
    that is due raises an exception, [_get_embed_model] raises that
    exception: the constructor has been called exactly once more, no
    sleep has been made, and no model is cached. This holds for every
    exception, the ones that are not time-outs among them. *)
Theorem error_propagates ctor (w : world) (e : exn) :
  _embed_model w = None ->
  ctor (constructed w) = Raises e ->
  _get_embed_model ctor w
  = (Raise e, {| _embed_model := None;
                 constructed := S (constructed w); slept := slept w |}).
Proof.
  intros Hnone Hraise. unfold _get_embed_model, construct.
  by rewrite Hnone, Hraise.
Qed.

Lemma error_propagates_witness :
  _get_embed_model (fun _ => Raises (ValueError "Invalid model name")) initial
  = (Raise (ValueError "Invalid model name"),
     {| _embed_model := None; constructed := 1; slept := [] |}).
Proof.
  apply (error_propagates (fun _ => Raises (ValueError "Invalid model name"))
           initial); reflexivity.
Defined.

End EmbedSpec.

Module StoreSpec.
Import Store.

Lemma guarded_disabled f w :
  disabled w -> guarded f w = (Raise (RuntimeError "Redis memory is not enabled."), w).
Proof.
  unfold guarded. intros [H|H]; rewrite H; [done|]. by destruct (MEMORY_ENABLED w).
Qed.

Lemma log_tool_call_disabled log_entry t w :
  disabled w -> _log_tool_call log_entry t w = w.
Proof.
  unfold _log_tool_call. intros [H|H]; rewrite H; [done|].
  by destruct (MEMORY_ENABLED w).
Qed.

Lemma invoke_disabled body log_entry t w :
  disabled w -> invoke body log_entry t w = (answer_without_store t, w).
Proof.
  intros Hd. unfold invoke. rewrite log_tool_call_disabled by done.
  destruct t; cbn [run answer_without_store]; try done;
    by apply guarded_disabled.
Qed.

Lemma serve_disabled body log_entry ts w :
  disabled w -> serve body log_entry ts w = (map answer_without_store ts, w).
Proof.
  intros Hd. induction ts as [|t ts IH]; [done|].
  cbn [serve map]. by rewrite invoke_disabled, IH.
Qed.

Lemma probe_failed_disabled redis_ping w :
  (redis_client w = None
   \/ exists client e, redis_client w = Some client /\ redis_ping client = Raise e) ->
  MEMORY_ENABLED (_check_redis_connection redis_ping w).2 = false
  /\ redis_client (_check_redis_connection redis_ping w).2 = None.
Proof.
  unfold _check_redis_connection.
  intros [H|(client & e & H & Hp)]; rewrite H; [done|]. by rewrite Hp.
Qed.

(** C6. The probe returns without raising in every state and for
    every behaviour of the ping. When there is a client and its ping
    returns, the probe leaves [MEMORY_ENABLED] true and the client in
    place; when the ping raises, or there is no client, it leaves
    [MEMORY_ENABLED] false and [redis_client] [None]. While
    [MEMORY_ENABLED] is false or [redis_client] is [None], every
    store-dependent tool raises [RuntimeError("Redis memory is not
    enabled.")] and the state, the commands sent to the server among
    it, is as before the call; [ping] and [echo] answer as always; and
    this stays so over every sequence of calls. *)
Theorem probe_and_guard redis_ping body log_entry :
  (forall w, (_check_redis_connection redis_ping w).1 = Ok tt)
  /\ (forall w client,
        redis_client w = Some client -> redis_ping client = Ok tt ->
        MEMORY_ENABLED (_check_redis_connection redis_ping w).2 = true
        /\ redis_client (_check_redis_connection redis_ping w).2 = Some client)
  /\ (forall w,
        (redis_client w = None
         \/ exists client e,
              redis_client w = Some client /\ redis_ping client = Raise e) ->
        disabled (_check_redis_connection redis_ping w).2
        /\ MEMORY_ENABLED (_check_redis_connection redis_ping w).2 = false
        /\ redis_client (_check_redis_connection redis_ping w).2 = None)
  /\ (forall w t,
        disabled w -> store_dependent t = true ->
        invoke body log_entry t w
        = (Raise (RuntimeError "Redis memory is not enabled."), w))
  /\ (forall w message,
        disabled w ->
        invoke body log_entry ping w = (Ok (VStr "pong"), w)
        /\ invoke body log_entry (echo message) w
           = (Ok (VStr ("Echo: " +:+ message)), w))
  /\ (forall w ts,
        disabled w ->
        serve body log_entry ts w = (map answer_without_store ts, w)).
Proof.
  repeat apply conj.
  - intros w. unfold _check_redis_connection.
    destruct (redis_client w); [destruct (redis_ping _)|]; done.
  - intros w client Hc Hp. unfold _check_redis_connection.
    by rewrite Hc, Hp.
  - intros w H. split; [left|]; by apply probe_failed_disabled.
  - intros w t Hd Ht. rewrite invoke_disabled by done. by destruct t.
  - intros w message Hd. by rewrite !invoke_disabled.
  - intros w ts Hd. by apply serve_disabled.
Qed.

(** The scenario of a probe that fails at start-up, followed by 50
    calls of a store-independent tool and 50 calls of a store-dependent
    one. *)
Lemma probe_and_guard_witness :
  let refused := fun _ : Redis =>
    @Raise unit (OtherError "ConnectionError" "Connection refused") in
  let body := fun (_ : guarded_tool) (_ : list value) (_ : Redis) (w : world) =>
    (Ok VNone, w) in
  let log_entry := fun _ : tool => ("tool_log"%string, "{}"%string) in
  let client := {| host := "localhost"; port := 6379; db := 5 |} in
  let w := (_check_redis_connection refused (startup client ∅)).2 in
  (_check_redis_connection refused (startup client ∅)).1 = Ok tt
  /\ disabled w
  /\ serve body log_entry (repeat ping 50 ++ repeat (set_memory "k" "v") 50) w
     = (repeat (Ok (VStr "pong")) 50
        ++ repeat (Raise (RuntimeError "Redis memory is not enabled.")) 50, w).
Proof.
  intros refused body log_entry client w.
  destruct (probe_and_guard refused body log_entry)
    as (Hret & _ & Hfail & _ & _ & Hserve).
  split; [apply Hret|].
  assert (disabled w) as Hd.
  { apply Hfail. right. exists client, (OtherError "ConnectionError" "Connection refused").
    split; reflexivity. }
  split; [exact Hd|]. rewrite (Hserve w _ Hd). reflexivity.
Defined.

End StoreSpec.

Module NumericSpec.
Import Numeric.

Lemma minimum_cases acc x : minimum acc x = acc \/ minimum acc x = x.
Proof. unfold minimum. destruct (_ || _); auto. Qed.

Lemma maximum_cases acc x : maximum acc x = acc \/ maximum acc x = x.
Proof. unfold maximum. destruct (_ || _); auto. Qed.

(** A reduction that keeps one of its two arguments returns an element
    of the array. *)
Lemma fold_left_pick (f : float -> float -> float) :
  (forall acc x, f acc x = acc \/ f acc x = x) ->
  forall rest a, In (fold_left f rest a) (a :: rest).
Proof.
  intros Hf rest. induction rest as [|c rest IH]; intros a; [by left|].
  cbn [fold_left]. destruct (IH (f a c)) as [E|Hin].
  - rewrite <- E. destruct (Hf a c) as [-> | ->]; [by left|right; by left].
  - right. by right.
Qed.

Lemma all_equal_spec values a c :
  all_equal values = true -> In a values -> In c values ->
  PrimFloat.eqb a c = true.
Proof.
  unfold all_equal. intros H Ha Hc.
  rewrite forallb_forall in H. specialize (H a Ha).
  rewrite forallb_forall in H. by apply H.
Qed.

(** C10, as amended. For every non-empty list whose elements are all
    equal, [normalize] with method [minmax] returns as many 0.5 as the
    list has elements; with method [zscore] it returns a list of the
    same length without raising, and that list is all 0.0 whenever the
    standard deviation computed for the list is zero. *)
Theorem normalize_constant np_sum (values : list float) :
  values <> [] -> all_equal values = true ->
  normalize np_sum values "minmax" = Ok (repeat 0.5%float (length values))
  /\ (exists l, normalize np_sum values "zscore" = Ok l
                /\ length l = length values)
  /\ (PrimFloat.eqb (np_std np_sum values) 0%float = true ->
      normalize np_sum values "zscore" = Ok (repeat 0%float (length values))).
Proof.
  intros Hne Heq. repeat apply conj.
  - unfold normalize. cbn [bool_decide decide_rel]. 
    destruct values as [|a rest]; [done|]. cbn [np_min np_max].
    rewrite (all_equal_spec (a :: rest) _ _ Heq
               (fold_left_pick maximum maximum_cases rest a)
               (fold_left_pick minimum minimum_cases rest a)).
    reflexivity.
  - unfold normalize. cbn [bool_decide decide_rel].
    destruct (PrimFloat.eqb _ _); eexists; (split; [reflexivity|]).
    + apply repeat_length.
    + apply length_map.
  - intros Hstd. unfold normalize. cbn [bool_decide decide_rel].
    by rewrite Hstd.
Qed.

Lemma normalize_constant_witness :
  normalize sum_in_order [2; 2; 2]%float "minmax" = Ok [0.5; 0.5; 0.5]%float
  /\ (exists l, normalize sum_in_order [2; 2; 2]%float "zscore" = Ok l
                /\ length l = 3%nat)
  /\ (PrimFloat.eqb (np_std sum_in_order [2; 2; 2]%float) 0%float = true ->
      normalize sum_in_order [2; 2; 2]%float "zscore" = Ok [0; 0; 0]%float).
Proof.
  apply (normalize_constant sum_in_order [2; 2; 2]%float);
    [discriminate|reflexivity].
Defined.

(** C10 fails for method [zscore] on three elements equal to 0.1: the
    sum 0.30000000000000004 divided by 3 is 0.10000000000000002, the
    standard deviation is 1.3877787807814457e-17 and not zero, and
    every element is normalized to -1. *)
Lemma normalize_zscore_tenths :
  all_equal [tenth; tenth; tenth] = true
  /\ PrimFloat.eqb (np_std sum_in_order [tenth; tenth; tenth]) 0%float = false
  /\ normalize sum_in_order [tenth; tenth; tenth] "zscore"
     = Ok [-1; -1; -1]%float
  /\ normalize sum_in_order [tenth; tenth; tenth] "zscore"
     <> Ok (repeat 0%float 3).
Proof.
  assert (normalize sum_in_order [tenth; tenth; tenth] "zscore"
          = Ok [-1; -1; -1]%float) as E by (vm_compute; reflexivity).
  split; [vm_compute; reflexivity|].
  split; [vm_compute; reflexivity|].
  split; [exact E|].
  rewrite E. intros H. inversion H.
Qed.

End NumericSpec.

(** ** More on the frame reader *)

Module FrameExtra.
Import Bytes Str Frame Streams BytesFacts StrFacts FrameFacts.

(** *** What a returned body is made of *)

Lemma read_body_slice (headers : gmap string string) stdin body rest :
  read_body headers stdin = Some (Body body rest) ->
  body <> [] /\ stdin = body ++ rest.
Proof.
  unfold read_body, read. intros H.
  destruct (headers !! _) as [v|]; [|done]. case_bool_decide; [done|].
  destruct (int v) as [len|]; [|done].
  destruct (len <? -1); [done|]. destruct (len =? -1).
  - case_bool_decide; [done|]. destruct (_ <? _); inversion H; subst.
    split; [done|]. by rewrite app_nil_r.
  - case_bool_decide; [done|]. destruct (_ <? _); inversion H; subst.
    split; [done|]. by rewrite take_drop.
Qed.

Lemma read_packet_loop_slice fuel headers stdin body rest :
  read_packet_loop fuel headers stdin = Some (Body body rest) ->
  body <> [] /\ exists pre, pre <> [] /\ stdin = pre ++ body ++ rest.
Proof.
  revert headers stdin. induction fuel as [|fuel IH]; intros h s; [done|].
  cbn [read_packet_loop].
  pose proof (readline_split s) as Hs.
  destruct (readline s) as [line r]. cbn [fst snd] in *.
  case_bool_decide as Hline; [done|].
  assert (forall h',
    read_packet_loop fuel h' r = Some (Body body rest) ->
    body <> [] /\ exists pre, pre <> [] /\ s = pre ++ body ++ rest) as Hrec.
  { intros h' (Hb & pre & _ & Hr)%IH. split; [done|].
    exists (line ++ pre). split; [by destruct line|].
    by rewrite <- Hs, Hr, <- app_assoc. }
  case_bool_decide.
  - destruct (read_body h r) as [p|] eqn:Eb; [|apply Hrec].
    intros [= ->]. apply read_body_slice in Eb as (Hb & Hr).
    split; [done|]. exists line. split; [done|]. by rewrite <- Hs, Hr.
  - destruct (has_colon _); [destruct (split_colon _)|]; apply Hrec.
Qed.

Lemma reader_loop_budget fuel stdin bodies ex :
  reader_loop fuel stdin = Some (bodies, ex) ->
  Forall (fun body => body <> []) bodies
  /\ (length (concat bodies) + length bodies <= length stdin)%nat.
Proof.
  revert stdin bodies ex. induction fuel as [|fuel IH]; intros s bodies ex; [done|].
  cbn [reader_loop].
  destruct (read_packet s) as [[body rest| |]|] eqn:Hp; try done.
  - destruct (reader_loop fuel rest) as [[bodies' ex']|] eqn:Hr; [|done].
    intros [= <- <-]. apply IH in Hr as (Hall & Hlen).
    apply read_packet_loop_slice in Hp as (Hb & pre & Hpre & ->).
    split; [by constructor|]. cbn [concat length].
    rewrite !length_app. destruct pre; [done|]. simpl. lia.
  - intros [= <- <-]. split; [constructor|simpl; lia].
  - intros [= <- <-]. split; [constructor|simpl; lia].
Qed.

(** *** One header line, then the blank line *)

Lemma split_colon_key (k v : bytes) :
  has_colon k = false -> split_colon (k ++ COLON :: v) = (k, v).
Proof.
  induction k as [|c k IH]; simpl; [done|].
  destruct (is_colon c); simpl; [done|]. intros H. by rewrite (IH H).
Qed.

Lemma has_colon_key (k v : bytes) : has_colon (k ++ COLON :: v) = true.
Proof. rewrite has_colon_app. simpl. by rewrite orb_true_r. Qed.

Lemma normalize_line_end (l : bytes) (crlf : bool) :
  (crlf = false -> last l <> Some CR) ->
  exists l0, l ++ line_end crlf = l0 ++ [LF]
             /\ (LF ∉ l -> LF ∉ l0) /\ normalize_eol (l0 ++ [LF]) = l.
Proof.
  intros Hcr. destruct crlf; simpl.
  - exists (l ++ [CR]). split; [by rewrite <- app_assoc|]. split.
    + intros H. apply not_elem_of_app. split; [done|].
      intros E%list_elem_of_singleton. discriminate.
    + rewrite <- app_assoc. apply normalize_eol_crlf.
  - exists l. split; [done|]. split; [done|].
    destruct (normalize_eol_lf l) as (l' & Hn & [->| ->]); [done|].
    destruct Hcr; [done|]. apply last_snoc.
Qed.

(** A header line and the blank line after it, with either line
    ending: the dictionary gets the header and the body is read. *)
Lemma read_packet_loop_block fuel (headers : gmap string string) l c1 c2 k v stdin :
  LF ∉ l -> l <> [] -> (c1 = false -> last l <> Some CR) ->
  has_colon l = true -> split_colon l = (k, v) ->
  read_packet_loop (S (S fuel)) headers (l ++ line_end c1 ++ line_end c2 ++ stdin)
  = match read_body (<[header_key k := header_value v]> headers) stdin with
    | Some p => Some p
    | None => read_packet_loop fuel ∅ stdin
    end.
Proof.
  intros Hlf Hne Hcr Hcolon Hsplit.
  destruct (normalize_line_end l c1 Hcr) as (l0 & Hl0 & Hlf0 & Hn).
  rewrite app_assoc, Hl0, <- app_assoc. cbn [app read_packet_loop].
  rewrite readline_line by auto.
  rewrite bool_decide_eq_false_2 by (destruct l0; discriminate).
  rewrite Hn. rewrite bool_decide_eq_false_2 by done.
  rewrite Hcolon, Hsplit.
  assert (exists b0, line_end c2 ++ stdin = b0 ++ LF :: stdin
                     /\ (LF ∉ b0) /\ normalize_eol (b0 ++ [LF]) = []) as (b0 & -> & Hb0 & Hnb).
  { destruct c2; [exists [CR]|exists []]; (split; [done|]); split; try done.
    - intros E%list_elem_of_singleton. discriminate.
    - apply not_elem_of_nil. }
  rewrite readline_line by done.
  rewrite bool_decide_eq_false_2 by (destruct b0; discriminate).
  rewrite Hnb. by rewrite bool_decide_eq_true_2.
Qed.

Lemma header_line_no_cr n : last (header_line n) <> Some CR.
Proof.
  unfold header_line, encode_ascii. rewrite map_app.
  pose proof (str_of_nat_nonempty n) as Hne. pose proof (str_of_nat_digits n) as Hd.
  intros Hlast. apply last_Some_elem_of in Hlast.
  apply elem_of_app in Hlast as [Hin|Hin].
  - vm_compute in Hin.
    repeat (apply elem_of_cons in Hin as [Hin|Hin]; [discriminate|]).
    by apply elem_of_nil in Hin.
  - apply list_elem_of_fmap in Hin as (c & Hc & Hin).
    rewrite Forall_forall in Hd. specialize (Hd c Hin).
    apply (f_equal ascii_of_byte) in Hc. rewrite ascii_of_byte_of_ascii in Hc.
    subst c. discriminate.
Qed.

(** *** Lines that do not end a block *)

Lemma is_block_line_spec l :
  is_block_line l = true -> (LF ∉ l) /\ l <> [] /\ l <> [CR].
Proof.
  unfold is_block_line. intros [[H1 H2]%andb_true_iff H3]%andb_true_iff.
  apply negb_true_iff in H1, H2, H3.
  apply bool_decide_eq_false in H2, H3. split; [|done].
  intros Hin. assert (existsb is_lf l = true) as E; [|congruence].
  apply existsb_exists. exists LF. split; [by apply list_elem_of_In|].
  by apply is_lf_true.
Qed.

Lemma read_packet_loop_block_line l (headers : gmap string string) :
  is_block_line l = true ->
  exists headers' : gmap string string,
    forall fuel rest,
      read_packet_loop (S fuel) headers (l ++ LF :: rest)
      = read_packet_loop fuel headers' rest.
Proof.
  intros (Hlf & Hne & Hcr)%is_block_line_spec.
  destruct (normalize_eol_lf l) as (l' & Hn & Hl').
  assert (l' <> []) as Hne'.
  { intros ->. destruct Hl' as [?|?]; simpl in *; congruence. }
  destruct (has_colon l') eqn:Hc.
  - exists (<[header_key (split_colon l').1 := header_value (split_colon l').2]> headers).
    intros fuel rest. cbn [read_packet_loop]. rewrite readline_line by done.
    rewrite Hn. rewrite bool_decide_eq_false_2 by (destruct l; discriminate).
    rewrite bool_decide_eq_false_2 by done. rewrite Hc.
    by destruct (split_colon l').
  - exists headers. intros fuel rest.
    cbn [read_packet_loop]. rewrite readline_line by done.
    rewrite Hn. rewrite bool_decide_eq_false_2 by (destruct l; discriminate).
    rewrite bool_decide_eq_false_2 by done. by rewrite Hc.
Qed.

Lemma read_packet_loop_block_lines lines (headers : gmap string string) :
  Forall (fun l => is_block_line l = true) lines ->
  exists headers' : gmap string string,
    forall fuel stdin,
      read_packet_loop (length lines + fuel) headers (noise lines ++ stdin)
      = read_packet_loop fuel headers' stdin.
Proof.
  intros Hl. revert headers.
  induction Hl as [|l lines Hl _ IH]; intros h.
  - by exists h.
  - destruct (read_packet_loop_block_line l h Hl) as (h1 & Hstep).
    destruct (IH h1) as (h2 & Hrest).
    exists h2. intros fuel stdin.
    unfold noise. cbn [map concat length Nat.add].
    rewrite <- !app_assoc. cbn [app]. rewrite Hstep. apply Hrest.
Qed.

(** *** The properties *)

(** X1. A body that [read_packet] returns is not empty and is a
    contiguous piece of the input: the input is a non-empty prefix (the
    header block and what was skipped before it), then the body, then
    exactly the stream that remains for the next call. *)
Theorem read_packet_slice (stdin body rest : bytes) :
  read_packet stdin = Some (Body body rest) ->
  body <> [] /\ exists pre, pre <> [] /\ stdin = pre ++ body ++ rest.
Proof. apply read_packet_loop_slice. Qed.

Lemma read_packet_slice_witness :
  b "A" <> []
  /\ exists pre, pre <> []
       /\ b "??" ++ [LF] ++ frame (b "A") ++ b "tail" = pre ++ b "A" ++ b "tail".
Proof.
  apply (read_packet_slice (b "??" ++ [LF] ++ frame (b "A") ++ b "tail")).
  vm_compute. reflexivity.
Defined.

(** X2. On every finite input the reader loop comes to an end. No
    body it hands over is empty, and the bodies handed over, with one
    byte of framing counted for each, are never more than the input. *)
Theorem reader_budget (stdin : bytes) :
  exists bodies ex,
    reader stdin = Some (bodies, ex)
    /\ Forall (fun body => body <> []) bodies
    /\ (length (concat bodies) + length bodies <= length stdin)%nat.
Proof.
  destruct (reader_total stdin) as [[bodies ex] Hr].
  exists bodies, ex. split; [done|]. by eapply reader_loop_budget.
Qed.

(** X3. The reader loop delivers the frames that are complete whatever
    follows them: for frames with non-empty payloads written in front
    of a stream, it hands over their payloads first and then does what
    it does on that stream alone. *)
Theorem reader_after_frames (payloads : list bytes) (stdin : bytes) bodies ex :
  Forall (fun payload => payload <> []) payloads ->
  reader stdin = Some (bodies, ex) ->
  reader (writer payloads ++ stdin) = Some (payloads ++ bodies, ex).
Proof. apply reader_frames. Qed.

Lemma reader_after_frames_witness :
  reader (writer [b "A"; b "B"] ++ b "Content-Length: -5" ++ [CR; LF; CR; LF])
  = Some ([b "A"; b "B"] ++ [],
          ReaderError (ValueError "read length must be non-negative or -1")).
Proof.
  apply (reader_after_frames [b "A"; b "B"]).
  - repeat constructor; discriminate.
  - vm_compute. reflexivity.
Defined.

(** X4. The header written by [writer] is read with either line
    ending, CR LF or LF alone, on each of its two lines: a non-empty
    payload after it is returned and the stream after the payload is
    what remains. *)
Theorem either_line_ending (c1 c2 : bool) (payload rest : bytes) :
  payload <> [] ->
  read_packet (header_line (length payload) ++ line_end c1 ++ line_end c2
               ++ payload ++ rest)
  = Some (Body payload rest).
Proof.
  intros Hne. apply (read_packet_any 2).
  destruct (header_line_split (length payload)) as (Hl & Hcolon & Hsplit).
  rewrite (read_packet_loop_block 0 ∅ _ c1 c2 _ _ _
             (header_line_no_lf _) Hl (fun _ => header_line_no_cr _) Hcolon Hsplit).
  rewrite header_key_content_length, header_value_digits, read_body_declared.
  by rewrite after_header_payload.
Qed.

Lemma either_line_ending_witness :
  read_packet (b "Content-Length: 5" ++ [LF] ++ [LF] ++ b "hello" ++ b "next")
  = Some (Body (b "hello") (b "next")).
Proof. apply (either_line_ending false false (b "hello") (b "next")). discriminate. Defined.

(** X5. The header name is matched after decoding, stripping and
    lower-casing, and the value after decoding and stripping: a header
    line whose key is stored as [content-length] and whose value is
    stored as the decimal digits of [n] declares [n] bytes, whatever its
    letter case and the white space around key and value. *)
Theorem header_name_normalized (k v : bytes) (n : nat) (payload rest : bytes) :
  LF ∉ k -> LF ∉ v -> has_colon k = false ->
  header_key k = "content-length"%string ->
  header_value v = string_of_list_ascii (str_of_nat n) ->
  length payload = n -> payload <> [] ->
  read_packet (k ++ COLON :: v ++ [CR; LF; CR; LF] ++ payload ++ rest)
  = Some (Body payload rest).
Proof.
  intros Hk Hv Hnc Hkey Hval Hlen Hne. apply (read_packet_any 2).
  replace (k ++ COLON :: v ++ [CR; LF; CR; LF] ++ payload ++ rest)
    with ((k ++ COLON :: v) ++ line_end true ++ line_end true ++ payload ++ rest)
    by (rewrite <- app_assoc; reflexivity).
  rewrite (read_packet_loop_block 0 ∅ _ true true k v).
  - rewrite Hkey, Hval, read_body_declared. subst n.
    by rewrite after_header_payload.
  - apply not_elem_of_app. split; [done|]. apply not_elem_of_cons. split; [done|done].
  - by destruct k.
  - done.
  - apply has_colon_key.
  - by apply split_colon_key.
Qed.

Lemma header_name_normalized_witness :
  read_packet (b " CONTENT-length " ++ COLON :: b "   5 " ++ [CR; LF; CR; LF]
               ++ b "hello" ++ b "next")
  = Some (Body (b "hello") (b "next")).
Proof.
  apply (header_name_normalized (b " CONTENT-length ") (b "   5 ") 5);
    try reflexivity; try discriminate.
  - intros H. repeat (apply elem_of_cons in H as [H|H]; [discriminate|]).
    by apply elem_of_nil in H.
  - intros H. repeat (apply elem_of_cons in H as [H|H]; [discriminate|]).
    by apply elem_of_nil in H.
Defined.

(** X6. Lines in front of the header in the same block do no harm,
    whatever they hold: after any lines that do not end the block, a
    [Content-Length] line among them or not, the frame is read by its
    own header, the last one, and its non-empty payload is returned. *)
Theorem last_header_wins (lines : list bytes) (payload rest : bytes) :
  Forall (fun l => is_block_line l = true) lines ->
  payload <> [] ->
  read_packet (noise lines ++ frame payload ++ rest) = Some (Body payload rest).
Proof.
  intros Hl Hne.
  destruct (read_packet_loop_block_lines lines ∅ Hl) as (h' & Hstep).
  apply (read_packet_any (length lines + 2)). rewrite Hstep.
  by apply read_packet_loop_frame.
Qed.

Lemma last_header_wins_witness :
  read_packet (noise [b "Content-Length: 999"; b "X-Trace: on"]
               ++ frame (b "hello") ++ b "next")
  = Some (Body (b "hello") (b "next")).
Proof.
  apply last_header_wins; [repeat constructor|discriminate].
Defined.

(** X7. A header block whose [Content-Length] value is empty after
    stripping, or is rejected by [int], is skipped as a whole: the
    frame with a non-empty payload that follows its blank line is the
    one returned. *)
Theorem unparsable_length_skipped (v payload rest : bytes) :
  LF ∉ v ->
  header_value v = ""%string \/ int (header_value v) = None ->
  payload <> [] ->
  read_packet (b "Content-Length:" ++ v ++ [CR; LF; CR; LF]
               ++ frame payload ++ rest)
  = Some (Body payload rest).
Proof.
  intros Hv Hbad Hne. apply (read_packet_any 4).
  replace (b "Content-Length:" ++ v ++ [CR; LF; CR; LF] ++ frame payload ++ rest)
    with ((b "Content-Length" ++ COLON :: v) ++ line_end true ++ line_end true
          ++ frame payload ++ rest)
    by (rewrite <- app_assoc; reflexivity).
  rewrite (read_packet_loop_block 2 ∅ _ true true (b "Content-Length") v).
  - replace (read_body _ _) with (@None packet).
    + by apply read_packet_loop_frame.
    + unfold read_body. rewrite lookup_insert_eq.
      destruct Hbad as [->| Hi]; [done|]. rewrite Hi. by case_bool_decide.
  - apply not_elem_of_app. split.
    + vm_compute. intros H.
      repeat (apply elem_of_cons in H as [H|H]; [discriminate|]).
      by apply elem_of_nil in H.
    + apply not_elem_of_cons. split; [done|done].
  - discriminate.
  - done.
  - apply has_colon_key.
  - by apply split_colon_key.
Qed.

Lemma unparsable_length_skipped_witness :
  read_packet (b "Content-Length:" ++ b " 12abc" ++ [CR; LF; CR; LF]
               ++ frame (b "hello") ++ b "next")
  = Some (Body (b "hello") (b "next")).
Proof.
  apply (unparsable_length_skipped (b " 12abc")).
  - intros H. repeat (apply elem_of_cons in H as [H|H]; [discriminate|]).
    by apply elem_of_nil in H.
  - right. reflexivity.
  - discriminate.
Defined.

End FrameExtra.

Module LimitsExtra.
Import Bytes Str Frame BytesFacts StrFacts FrameFacts LimitsFacts.

(** X19. Under the limits of the interpreter, a header that declares
    [n] bytes, followed by fewer than [n] bytes and end-of-stream:
    when [n] is a size that [read] accepts (a bytes object can have
    it, the process can allocate it, and [int] accepts its digits),
    [read_packet] returns [None] and raises nothing, and [reader]
    ends at end-of-stream with nothing handed over. *)
Theorem truncated_body_within_limits (max_alloc : Z) (n : nat) (partial : bytes) :
  (length partial < n)%nat ->
  Z.of_nat n <= max_alloc ->
  Z.of_nat n <= Limits.PY_SSIZE_T_MAX - Limits.PyBytesObject_SIZE ->
  (length (str_of_nat n) <= Limits.default_max_str_digits)%nat ->
  Limits.read_packet max_alloc (content_length_header n ++ partial) = Some (NoPacket [])
  /\ Limits.reader max_alloc (content_length_header n ++ partial)
     = Some ([], EndOfStream).
Proof.
  intros Hlt Ha Hs Hd.
  assert (Limits.read_packet max_alloc (content_length_header n ++ partial)
          = Some (NoPacket [])) as H.
  { apply limits_read_packet_declared.
    rewrite limits_read_body_declared by done.
    rewrite limits_read_within by lia. unfold Bytes.read.
    destruct (Z.ltb_spec (Z.of_nat n) (-1)); [lia|].
    destruct (Z.eqb_spec (Z.of_nat n) (-1)); [lia|].
    rewrite Nat2Z.id. rewrite take_ge, drop_ge by lia.
    destruct (Z.ltb_spec (Z.of_nat (length partial)) (Z.of_nat n)); [|lia].
    by rewrite orb_true_r. }
  split; [exact H|]. by eapply limits_reader_no_packet.
Qed.

Lemma truncated_body_within_limits_witness :
  Limits.read_packet 4096 (content_length_header 10 ++ b "hello") = Some (NoPacket [])
  /\ Limits.reader 4096 (content_length_header 10 ++ b "hello")
     = Some ([], EndOfStream).
Proof.
  apply truncated_body_within_limits.
  - simpl. lia.
  - lia.
  - unfold Limits.PY_SSIZE_T_MAX, Limits.PyBytesObject_SIZE. lia.
  - vm_compute. lia.
Defined.



End LimitsExtra.

(** ** More on the embedding model *)

Module EmbedExtra.
Import Embed EmbedSpec.

Lemma calls_load ctor (w : world) (n : nat) :
  _embed_model w = None -> ctor (constructed w) = Loaded ->
  calls ctor (S n) w
  = (repeat (Ok (constructed w)) (S n),
     {| _embed_model := Some (constructed w);
        constructed := S (constructed w); slept := slept w |}).
Proof.
  intros Hnone Hload. cbn [calls repeat].
  unfold _get_embed_model, construct. rewrite Hnone, Hload.
  cbn [construct fst snd constructed slept].
  pose proof (calls_ready ctor
                {| _embed_model := Some (constructed w);
                   constructed := S (constructed w); slept := slept w |}
                (constructed w) n eq_refl) as Hready.
  unfold handle in *. by rewrite Hready.
Qed.

(** X8. A load that fails is not remembered: while the constructor
    raises, each call of [_get_embed_model] calls it again and raises
    what it raised; the first call on which it succeeds caches the
    model, and every later call returns that handle without another
    constructor call. *)
Theorem failed_loads_retried ctor (w : world) (errors : list exn) (n : nat) :
  _embed_model w = None ->
  (forall i e, errors !! i = Some e -> ctor (constructed w + i)%nat = Raises e) ->
  ctor (constructed w + length errors)%nat = Loaded ->
  calls ctor (length errors + S n) w
  = (map Raise errors
     ++ repeat (Ok (constructed w + length errors)%nat) (S n),
     {| _embed_model := Some (constructed w + length errors)%nat;
        constructed := S (constructed w + length errors);
        slept := slept w |}).
Proof.
  revert w. induction errors as [|e errors IH]; intros w Hnone Herr Hload.
  - cbn [length Nat.add map app]. rewrite Nat.add_0_r in *.
    by apply calls_load.
  - cbn [length Nat.add calls map app].
    unfold _get_embed_model at 1. unfold construct. rewrite Hnone.
    pose proof (Herr 0%nat e eq_refl) as He. rewrite Nat.add_0_r in He.
    rewrite He.
    set (w1 := {| _embed_model := None;
                  constructed := S (constructed w); slept := slept w |}).
    assert (forall i, constructed w + S i = constructed w1 + i)%nat as Ek
      by (intros i; simpl; lia).
    cbn [length] in Hload. rewrite !Ek in *.
    assert (calls ctor (length errors + S n) w1
            = (map Raise errors
               ++ repeat (Ok (constructed w1 + length errors)%nat) (S n),
               {| _embed_model := Some (constructed w1 + length errors)%nat;
                  constructed := S (constructed w1 + length errors);
                  slept := slept w1 |})) as Hrest.
    { apply IH; [done| |done]. intros i e' Hi. rewrite <- Ek. by apply Herr. }
    unfold handle in *. rewrite Hrest. reflexivity.
Qed.

Lemma failed_loads_retried_witness :
  let ctor := fun k => if (k <? 2)%nat
                       then Raises (TimeoutError "Operation timed out")
                       else Loaded in
  calls ctor 5 initial
  = ([Raise (TimeoutError "Operation timed out");
      Raise (TimeoutError "Operation timed out");
      Ok 2%nat; Ok 2%nat; Ok 2%nat],
     {| _embed_model := Some 2%nat; constructed := 3; slept := [] |}).
Proof.
  intros ctor.
  apply (failed_loads_retried ctor initial
           [TimeoutError "Operation timed out"; TimeoutError "Operation timed out"] 2).
  - reflexivity.
  - intros [|[|i]] e H; inversion H; reflexivity.
  - reflexivity.
Defined.

(** X9. The retry loop of [test_embedding_timeout.py] is bounded
    whatever the constructor does: it makes between one and three
    constructor calls, sleeps nothing, 1 s, or 1 s and then 2 s, never
    runs to its end without a result, and a model it returns is the one
    made by its last constructor call. *)
Theorem retry_loop_bounded ctor (EMBED_LOAD_TIMEOUT : nat) (w : world) :
  let r := (retry_logic ctor EMBED_LOAD_TIMEOUT w).1 in
  let w' := (retry_logic ctor EMBED_LOAD_TIMEOUT w).2 in
  (constructed w < constructed w' <= constructed w + 3)%nat
  /\ _embed_model w' = _embed_model w
  /\ (exists sl, slept w' = slept w ++ sl /\ (sl = [] \/ sl = [1] \/ sl = [1; 2]))
  /\ r <> Ok None
  /\ (forall model, r = Ok (Some model) -> S model = constructed w').
Proof.
  unfold retry_logic. cbn [seq retry_loop]. unfold construct, sleep.
  change (bool_decide (0%nat = 2%nat)) with false.
  change (bool_decide (1%nat = 2%nat)) with false.
  change (bool_decide (2%nat = 2%nat)) with true.
  cbn [constructed slept _embed_model].
  destruct (ctor (constructed w)) as [|e1]; cbn.
  { repeat apply conj; try lia; try done.
    - exists []. split; [by rewrite app_nil_r|auto].
    - by intros model [= <-]. }
  destruct (is_timeout e1); cbn.
  2:{ repeat apply conj; try lia; try done.
      exists []. split; [by rewrite app_nil_r|auto]. }
  destruct (ctor (S (constructed w))) as [|e2]; cbn.
  { repeat apply conj; try lia; try done.
    - exists [1]. auto.
    - by intros model [= <-]. }
  destruct (is_timeout e2); cbn.
  2:{ repeat apply conj; try lia; try done. exists [1]. auto. }
  destruct (ctor (S (S (constructed w)))) as [|e3]; cbn.
  { repeat apply conj; try lia; try done.
    - exists [1; 2]. split; [by rewrite <- app_assoc|auto].
    - by intros model [= <-]. }
  destruct (is_timeout e3); cbn;
    (repeat apply conj; try lia; try done;
     exists [1; 2]; split; [by rewrite <- app_assoc|auto]).
Qed.

End EmbedExtra.

(** ** More on the memory tools *)

Module StoreExtra.
Import Store ToolLog StoreSpec.

Lemma log_key_not_memory now t key :
  log_key now t <> REDIS_MEMORY_PREFIX +:+ key.
Proof. unfold log_key, REDIS_MEMORY_PREFIX. simpl. discriminate. Qed.

Lemma memory_key_inj k k' :
  REDIS_MEMORY_PREFIX +:+ k = REDIS_MEMORY_PREFIX +:+ k' -> k = k'.
Proof. unfold REDIS_MEMORY_PREFIX. simpl. intros H. by inversion H. Qed.

(** With the store on, a call is logged first and then runs on the
    client. *)
Lemma log_tool_call_enabled clock entry t w client :
  MEMORY_ENABLED w = true -> redis_client w = Some client ->
  let w0 := send (SET (log_key (clock t) t) (entry t) (Some 86400)) w in
  _log_tool_call (log_entry clock entry) t w = w0
  /\ MEMORY_ENABLED w0 = true /\ redis_client w0 = Some client.
Proof.
  intros He Hc. unfold _log_tool_call, log_entry. rewrite He, Hc. done.
Qed.

(** X10. With the store on, what [set_memory] stores under a key is
    what [get_memory] returns for that key right after, the log entries
    written for the two calls notwithstanding; the store stays on. *)
Theorem set_then_get body clock entry (w : world) (key val : string) :
  enabled w ->
  exists w1 w2,
    invoke body (log_entry clock entry) (set_memory key val) w
    = (Ok (VDict [("ok"%string, VBool true); ("key"%string, VStr key)]), w1)
    /\ invoke body (log_entry clock entry) (get_memory key) w1
       = (Ok (VDict [("key"%string, VStr key); ("value"%string, VStr val)]), w2)
    /\ enabled w2.
Proof.
  intros (He & client & Hc).
  destruct (log_tool_call_enabled clock entry (set_memory key val) w client He Hc)
    as (Hlog & He0 & Hc0).
  eexists _, _. split; [|split].
  - unfold invoke. rewrite Hlog. cbn [run]. unfold guarded.
    rewrite He0, Hc0. reflexivity.
  - unfold invoke, _log_tool_call, log_entry. cbn [send MEMORY_ENABLED redis_client].
    rewrite He, Hc. cbn [run]. unfold guarded.
    cbn [send MEMORY_ENABLED redis_client store]. rewrite He, Hc.
    rewrite lookup_insert_ne by apply log_key_not_memory.
    rewrite lookup_insert_eq. reflexivity.
  - split; [exact He|by exists client].
Qed.

Lemma set_then_get_witness :
  let client := {| host := "localhost"; port := 6379; db := 5 |} in
  let body := fun (_ : guarded_tool) (_ : list value) (_ : Redis) (w : world) =>
    (Ok VNone, w) in
  let w := (_check_redis_connection (fun _ => Ok tt) (startup client ∅)).2 in
  exists w1 w2,
    invoke body (log_entry (fun _ => "1700000000.0") (fun _ => "{}"))
      (set_memory "k" "v") w
    = (Ok (VDict [("ok"%string, VBool true); ("key"%string, VStr "k")]), w1)
    /\ invoke body (log_entry (fun _ => "1700000000.0") (fun _ => "{}"))
         (get_memory "k") w1
       = (Ok (VDict [("key"%string, VStr "k"); ("value"%string, VStr "v")]), w2)
    /\ enabled w2.
Proof.
  intros client body w. apply set_then_get.
  split; [reflexivity|]. exists client. reflexivity.
Defined.

(** X11. With the store on, [delete_memory] reports 1 when the key was
    stored and 0 when it was not, and [get_memory] for that key right
    after returns [None] as the value. *)
Theorem delete_then_get body clock entry (w : world) (key : string) :
  enabled w ->
  exists w1 w2 deleted,
    invoke body (log_entry clock entry) (delete_memory key) w
    = (Ok (VDict [("ok"%string, VBool true); ("deleted"%string, VInt deleted)]), w1)
    /\ deleted = (if store w !! (REDIS_MEMORY_PREFIX +:+ key) is Some _ then 1 else 0)
    /\ invoke body (log_entry clock entry) (get_memory key) w1
       = (Ok (VDict [("key"%string, VStr key); ("value"%string, VNone)]), w2).
Proof.
  intros (He & client & Hc).
  eexists _, _, _. split; [|split].
  - unfold invoke, _log_tool_call, log_entry. rewrite He, Hc. cbn [run].
    unfold guarded. cbn [send MEMORY_ENABLED redis_client store].
    rewrite He, Hc. reflexivity.
  - cbn [send store]. by rewrite lookup_insert_ne by apply log_key_not_memory.
  - unfold invoke, _log_tool_call, log_entry.
    cbn [send MEMORY_ENABLED redis_client]. rewrite He, Hc. cbn [run].
    unfold guarded. cbn [send MEMORY_ENABLED redis_client store]. rewrite He, Hc.
    rewrite lookup_insert_ne by apply log_key_not_memory.
    rewrite lookup_delete_eq. reflexivity.
Qed.

Lemma delete_then_get_witness :
  let client := {| host := "localhost"; port := 6379; db := 5 |} in
  let body := fun (_ : guarded_tool) (_ : list value) (_ : Redis) (w : world) =>
    (Ok VNone, w) in
  let w := {| MEMORY_ENABLED := true; redis_client := Some client;
              store := {[ "mem:k"%string := "v"%string ]}; commands := [] |} in
  exists w1 w2 deleted,
    invoke body (log_entry (fun _ => "1700000000.0") (fun _ => "{}"))
      (delete_memory "k") w
    = (Ok (VDict [("ok"%string, VBool true); ("deleted"%string, VInt deleted)]), w1)
    /\ deleted = (if store w !! (REDIS_MEMORY_PREFIX +:+ "k") is Some _ then 1 else 0)
    /\ invoke body (log_entry (fun _ => "1700000000.0") (fun _ => "{}"))
         (get_memory "k") w1
       = (Ok (VDict [("key"%string, VStr "k"); ("value"%string, VNone)]), w2).
Proof.
  intros client body w. apply delete_then_get.
  split; [reflexivity|]. exists client. reflexivity.
Defined.

(** X12. With the store on, [set_memory] and [delete_memory] on one
    key leave what [get_memory] returns for every other key as it
    was. *)
Theorem other_keys_untouched body clock entry (w : world) (key key' val : string) :
  enabled w -> key <> key' ->
  (invoke body (log_entry clock entry) (get_memory key')
     (invoke body (log_entry clock entry) (set_memory key val) w).2).1
  = (invoke body (log_entry clock entry) (get_memory key') w).1
  /\ (invoke body (log_entry clock entry) (get_memory key')
        (invoke body (log_entry clock entry) (delete_memory key) w).2).1
     = (invoke body (log_entry clock entry) (get_memory key') w).1.
Proof.
  intros (He & client & Hc) Hne.
  assert (REDIS_MEMORY_PREFIX +:+ key <> REDIS_MEMORY_PREFIX +:+ key') as Hk
    by (intros E; by apply Hne, memory_key_inj).
  split.
  - unfold invoke, _log_tool_call, log_entry. rewrite He, Hc. cbn [run].
    unfold guarded. cbn [send MEMORY_ENABLED redis_client store snd fst].
    rewrite He, Hc. cbn [send MEMORY_ENABLED redis_client store snd fst].
    rewrite He, Hc. cbn [send MEMORY_ENABLED redis_client store snd fst].
    rewrite He, Hc. cbn [fst].
    rewrite !(lookup_insert_ne _ (log_key _ _)) by apply log_key_not_memory.
    rewrite lookup_insert_ne by done.
    rewrite !(lookup_insert_ne _ (log_key _ _)) by apply log_key_not_memory.
    reflexivity.
  - unfold invoke, _log_tool_call, log_entry. rewrite He, Hc. cbn [run].
    unfold guarded. cbn [send MEMORY_ENABLED redis_client store snd fst].
    rewrite He, Hc. cbn [send MEMORY_ENABLED redis_client store snd fst].
    rewrite He, Hc. cbn [send MEMORY_ENABLED redis_client store snd fst].
    rewrite He, Hc. cbn [fst].
    rewrite !(lookup_insert_ne _ (log_key _ _)) by apply log_key_not_memory.
    rewrite lookup_delete_ne by done.
    rewrite !(lookup_insert_ne _ (log_key _ _)) by apply log_key_not_memory.
    reflexivity.
Qed.

Lemma other_keys_untouched_witness :
  let client := {| host := "localhost"; port := 6379; db := 5 |} in
  let body := fun (_ : guarded_tool) (_ : list value) (_ : Redis) (w : world) =>
    (Ok VNone, w) in
  let le := log_entry (fun _ => "1700000000.0"%string) (fun _ => "{}"%string) in
  let w := {| MEMORY_ENABLED := true; redis_client := Some client;
              store := {[ "mem:b"%string := "old"%string ]}; commands := [] |} in
  (invoke body le (get_memory "b") (invoke body le (set_memory "a" "new") w).2).1
  = (invoke body le (get_memory "b") w).1
  /\ (invoke body le (get_memory "b") (invoke body le (delete_memory "a") w).2).1
     = (invoke body le (get_memory "b") w).1.
Proof.
  intros client body le w. apply other_keys_untouched.
  - split; [reflexivity|]. by exists client.
  - discriminate.
Defined.

(** X17. With the store on, [ping] and [echo] answer as always; the
    one command each call sends is the [SET] of its log entry, under a
    [tool_log:] key with a day of expiry, and every memory key holds
    what it held before. *)
Theorem logged_when_enabled body clock entry (w : world) (message key : string) :
  enabled w ->
  invoke body (log_entry clock entry) ping w
  = (Ok (VStr "pong"),
     send (SET ("tool_log:" +:+ clock ping +:+ ":ping") (entry ping) (Some 86400)) w)
  /\ invoke body (log_entry clock entry) (echo message) w
     = (Ok (VStr ("Echo: " +:+ message)),
        send (SET ("tool_log:" +:+ clock (echo message) +:+ ":echo")
                (entry (echo message)) (Some 86400)) w)
  /\ store (invoke body (log_entry clock entry) ping w).2
       !! (REDIS_MEMORY_PREFIX +:+ key)
     = store w !! (REDIS_MEMORY_PREFIX +:+ key)
  /\ store (invoke body (log_entry clock entry) (echo message) w).2
       !! (REDIS_MEMORY_PREFIX +:+ key)
     = store w !! (REDIS_MEMORY_PREFIX +:+ key).
Proof.
  intros (He & client & Hc).
  unfold invoke, _log_tool_call, log_entry. rewrite He, Hc. cbn [run fst snd].
  repeat apply conj; try reflexivity;
    cbn [send store]; by rewrite lookup_insert_ne by apply log_key_not_memory.
Qed.

Lemma logged_when_enabled_witness :
  let client := {| host := "localhost"; port := 6379; db := 5 |} in
  let body := fun (_ : guarded_tool) (_ : list value) (_ : Redis) (w : world) =>
    (Ok VNone, w) in
  let w := {| MEMORY_ENABLED := true; redis_client := Some client;
              store := {[ "mem:k"%string := "v"%string ]}; commands := [] |} in
  commands (invoke body (log_entry (fun _ => "1700000000.0") (fun _ => "{}")) ping w).2
  = [SET "tool_log:1700000000.0:ping" "{}" (Some 86400)].
Proof.
  intros client body w.
  destruct (logged_when_enabled body (fun _ => "1700000000.0"%string)
              (fun _ => "{}"%string) w "hi" "k") as (Hping & _).
  - split; [reflexivity|]. by exists client.
  - rewrite Hping. reflexivity.
Defined.

End StoreExtra.

(** ** More on [normalize] *)

Module NumericExtra.
Import Numeric.

(** X13. Whatever the method and the list, a list that [normalize]
    returns has as many elements as the list it was given. *)
Theorem normalize_length np_sum (values : list float) (method : string) l :
  normalize np_sum values method = Ok l -> length l = length values.
Proof.
  unfold normalize.
  case_bool_decide; [|case_bool_decide; [|done]].
  - destruct (PrimFloat.eqb _ _); intros [= <-];
      [apply repeat_length|apply length_map].
  - destruct (np_min values); [|done]. destruct (np_max values); [|done].
    destruct (PrimFloat.eqb _ _); intros [= <-];
      [apply repeat_length|apply length_map].
Qed.

Lemma normalize_length_witness :
  length [PrimFloat.div (PrimFloat.sub 1 1) (PrimFloat.sub 3 1);
          PrimFloat.div (PrimFloat.sub 3 1) (PrimFloat.sub 3 1)]%float
  = length [1; 3]%float.
Proof.
  apply (normalize_length sum_in_order [1; 3]%float "minmax").
  vm_compute. reflexivity.
Defined.

(** After its argument check, [normalize] raises in two cases only,
    each time a [ValueError]: for a method that is neither [zscore] nor
    [minmax], with the method in the message, and for [minmax] on the
    empty array, which has no minimum. *)
Lemma normalize_raises np_sum (values : list float) (method : string) e :
  normalize np_sum values method = Raise e <->
  (method <> "zscore"%string /\ method <> "minmax"%string
   /\ e = ValueError ("Unknown normalization method: " +:+ method))
  \/ (method = "minmax"%string /\ values = []
      /\ e = ValueError "zero-size array to reduction operation minimum which has no identity").
Proof.
  unfold normalize. case_bool_decide as Hz; [|case_bool_decide as Hm].
  - subst method. split.
    + by destruct (PrimFloat.eqb _ _).
    + intros [(H & _)|(H & _)]; done.
  - subst method. destruct values as [|a rest]; cbn [np_min np_max].
    + split; [intros [= <-]; by right|].
      intros [(_ & H & _)|(_ & _ & ->)]; done.
    + split; [by destruct (PrimFloat.eqb _ _)|].
      intros [(_ & H & _)|(_ & H & _)]; done.
  - split.
    + intros [= <-]. by left.
    + intros [(_ & _ & ->)|(H & _)]; done.
Qed.

(** The three ways in which [_ensure_list_of_numbers] raises, each a
    [ValueError] that names the parameter. *)
Lemma ensure_list_of_numbers_raises (Any : Type) is_list_or_tuple type_name np_array
    (values : Any) (param_name : string) e :
  Checked._ensure_list_of_numbers Any is_list_or_tuple type_name np_array
    values param_name = Raise e <->
  (is_list_or_tuple values = false
   /\ e = ValueError (param_name +:+ " must be a list of numbers, got "
                      +:+ type_name values))
  \/ (is_list_or_tuple values = true
      /\ exists exc, np_array values = Raise exc
         /\ e = ValueError (param_name +:+ " must contain only numeric values: "
                            +:+ Checked.str exc))
  \/ (is_list_or_tuple values = true
      /\ exists arr, np_array values = Ok arr /\ Checked.ndim arr <> 1%nat
         /\ e = ValueError (param_name +:+ " must be 1D (list of numbers), got shape "
                            +:+ Checked.shape arr)).
Proof.
  unfold Checked._ensure_list_of_numbers.
  destruct (is_list_or_tuple values); cbn [negb].
  - destruct (np_array values) as [arr|exc].
    + case_bool_decide as Hd.
      * split.
        -- intros [= <-]. right. right. split; [done|]. by exists arr.
        -- intros [(H & _)|[(_ & exc & H & _)|(_ & arr' & [= <-] & _ & ->)]]; done.
      * split; [done|].
        intros [(H & _)|[(_ & exc & H & _)|(_ & arr' & [= <-] & H & _)]]; done.
    + split.
      * intros [= <-]. right. left. split; [done|]. by exists exc.
      * intros [(H & _)|[(_ & exc' & [= <-] & ->)|(_ & arr & H & _)]]; done.
  - split.
    + intros [= <-]. by left.
    + intros [(_ & ->)|[(H & _)|(H & _)]]; done.
Qed.

(** X14. The tool [normalize], with the check of its argument, raises
    nothing but [ValueError], in exactly these cases: the check
    raises (the values are no list or tuple, numpy cannot convert
    them, or the array has not one dimension), and then the method is
    not looked at; or the check returns an array and the method is
    neither [zscore] nor [minmax], or is [minmax] while the array is
    empty, which has no minimum. *)
Theorem checked_normalize_raises (Any : Type) is_list_or_tuple type_name np_array
    np_sum (values : Any) (method : string) e :
  let check :=
    Checked._ensure_list_of_numbers Any is_list_or_tuple type_name np_array
      values "values" in
  let raised :=
    Checked.normalize Any is_list_or_tuple type_name np_array np_sum values method
    = Raise e in
  (raised <->
   check = Raise e
   \/ exists arr, check = Ok arr
      /\ ((method <> "zscore"%string /\ method <> "minmax"%string
           /\ e = ValueError ("Unknown normalization method: " +:+ method))
          \/ (method = "minmax"%string /\ arr = []
              /\ e = ValueError "zero-size array to reduction operation minimum which has no identity")))
  /\ (raised -> exists msg, e = ValueError msg).
Proof.
  cbv zeta. unfold Checked.normalize.
  destruct (Checked._ensure_list_of_numbers _ _ _ _ _ _) as [arr|e'] eqn:Hc.
  - rewrite normalize_raises. split.
    + split.
      * intros H. right. by exists arr.
      * intros [H|(arr' & [= <-] & H)]; done.
    + intros [(_ & _ & ->)|(_ & _ & ->)]; eauto.
  - split.
    + split; [by left|]. intros [H|(arr & H & _)]; done.
    + intros [= <-]. apply ensure_list_of_numbers_raises in Hc.
      destruct Hc as [(_ & ->)|[(_ & exc & _ & ->)|(_ & arr & _ & _ & ->)]]; eauto.
Qed.

End NumericExtra.

(** ** Flags read from the environment *)

Module EnvExtra.
Import Str Env.

Lemma is_space_lower c : is_space (lower_char c) = is_space c.
Proof. destruct c as [[] [] [] [] [] [] [] []]; reflexivity. Qed.

Lemma lstrip_lower s : lstrip (lower s) = lower (lstrip s).
Proof.
  induction s as [|c s IH]; [done|]. cbn [lower map lstrip].
  rewrite is_space_lower. destruct (is_space c); [apply IH|done].
Qed.

Lemma lower_rev s : lower (rev s) = rev (lower s).
Proof. apply map_rev. Qed.

Lemma strip_lower s : strip (lower s) = lower (strip s).
Proof.
  unfold strip. by rewrite lstrip_lower, <- lower_rev, lstrip_lower, lower_rev.
Qed.

Lemma lstrip_spaces pre s :
  Forall (fun c => is_space c = true) pre -> lstrip (pre ++ s) = lstrip s.
Proof. induction 1 as [|c pre Hc _ IH]; [done|]. simpl. by rewrite Hc. Qed.

Lemma lstrip_app s t :
  (lstrip s = [] /\ lstrip (s ++ t) = lstrip t)
  \/ (lstrip s <> [] /\ lstrip (s ++ t) = lstrip s ++ t).
Proof.
  induction s as [|c s IH]; [by left|]. simpl.
  destruct (is_space c); [done|]. by right.
Qed.

Lemma strip_padding pre s post :
  Forall (fun c => is_space c = true) pre ->
  Forall (fun c => is_space c = true) post ->
  strip (pre ++ s ++ post) = strip s.
Proof.
  intros Hpre Hpost. unfold strip. rewrite lstrip_spaces by done.
  destruct (lstrip_app s post) as [[E ->]|[_ ->]].
  - rewrite E. rewrite <- (app_nil_r post), lstrip_spaces by done. done.
  - rewrite rev_app_distr. rewrite lstrip_spaces; [done|].
    by apply Forall_rev.
Qed.

(** X15. A variable that is set decides the flag alone, the default
    plays no part; and the flag does not change when the value is
    padded with white space or written in another letter case. *)
Theorem bool_from_env_padding_case (environ : gmap string string)
    (name raw raw' : string) (pre s post : list ascii) (default default' : bool) :
  is_ascii_str raw = true -> is_ascii_str raw' = true ->
  list_ascii_of_string raw' = pre ++ s ++ post ->
  Forall (fun c => is_space c = true) pre ->
  Forall (fun c => is_space c = true) post ->
  lower s = lower (list_ascii_of_string raw) ->
  _bool_from_env (<[name := raw']> environ) name default
  = _bool_from_env (<[name := raw]> environ) name default'.
Proof.
  intros _ _ Hraw' Hpre Hpost Hcase. unfold _bool_from_env.
  rewrite !lookup_insert_eq. rewrite Hraw', strip_padding by done.
  by rewrite <- !strip_lower, Hcase.
Qed.

Lemma bool_from_env_padding_case_witness :
  _bool_from_env (<["MCP_RUNTIME_ALLOW_SHELL"%string := "  TrUe "%string]> ∅)
    "MCP_RUNTIME_ALLOW_SHELL" false
  = _bool_from_env (<["MCP_RUNTIME_ALLOW_SHELL"%string := "true"%string]> ∅)
      "MCP_RUNTIME_ALLOW_SHELL" true.
Proof.
  apply (bool_from_env_padding_case ∅ "MCP_RUNTIME_ALLOW_SHELL" "true" "  TrUe "
           (list_ascii_of_string "  ") (list_ascii_of_string "TrUe")
           (list_ascii_of_string " "));
    try reflexivity; repeat constructor.
Defined.

End EnvExtra.

(** ** The task queue *)

Module TasksExtra.
Import Tasks.

Definition enabled (w : world) : Prop :=
  MEMORY_ENABLED w = true /\ exists client, redis_client w = Some client.

Lemma guarded_enabled f w : enabled w -> guarded f w = f w.
Proof. intros (He & client & Hc). unfold guarded. by rewrite He, Hc. Qed.

(** Queueing appends the encoded tasks at the right end. *)
Lemma serve_queue json_dumps json_loads (ts : list task) (w : world) :
  enabled w ->
  serve json_dumps json_loads
    (map (fun t => queue (id t) (queued_at t) (name t) (payload t)) ts) w
  = (map (fun t => Ok (Queued (queued (id t) (queued_at t) (name t) (payload t)))) ts,
     {| MEMORY_ENABLED := MEMORY_ENABLED w; redis_client := redis_client w;
        task_queue := task_queue w
          ++ map (fun t => json_dumps
                    (queued (id t) (queued_at t) (name t) (payload t))) ts |}).
Proof.
  revert w. induction ts as [|t ts IH]; intros w Hw.
  - cbn. rewrite app_nil_r. by destruct w.
  - cbn [map serve handle_request]. unfold queue_task.
    rewrite guarded_enabled by done. fold (queued (id t) (queued_at t) (name t) (payload t)).
    rewrite IH.
    + cbn [MEMORY_ENABLED redis_client task_queue].
      by rewrite <- app_assoc.
    + destruct Hw as (He & client & Hc). split; [done|by exists client].
Qed.

(** Taking removes from the left end, one task for each call. *)
Lemma serve_next json_dumps json_loads (ts : list task) (clocks : list float)
    (rest : list string) (w : world) :
  enabled w -> length clocks = length ts ->
  Forall (fun t => json_loads (json_dumps t) = Ok t) ts ->
  task_queue w = map json_dumps ts ++ rest ->
  serve json_dumps json_loads (map next clocks) w
  = (zip_with (fun now t => Ok (Next (Some (taken now t)))) clocks ts,
     {| MEMORY_ENABLED := MEMORY_ENABLED w; redis_client := redis_client w;
        task_queue := rest |}).
Proof.
  revert clocks w. induction ts as [|t ts IH]; intros clocks w Hw Hlen Hrt Hq.
  - destruct clocks; [|done]. cbn. cbn in Hq. rewrite <- Hq. by destruct w.
  - destruct clocks as [|now clocks]; [done|].
    inversion Hrt as [|? ? Ht Hts]; subst.
    cbn [map serve handle_request zip_with]. unfold get_next_task.
    rewrite guarded_enabled by done. rewrite Hq. cbn [map app]. rewrite Ht.
    fold (taken now t). rewrite (IH clocks).
    + reflexivity.
    + destruct Hw as (He & client & Hc). split; [done|by exists client].
    + cbn in Hlen. lia.
    + done.
    + reflexivity.
Qed.

Lemma serve_app json_dumps json_loads (rs1 rs2 : list request) (w : world) :
  serve json_dumps json_loads (rs1 ++ rs2) w
  = let '(a1, w1) := serve json_dumps json_loads rs1 w in
    let '(a2, w2) := serve json_dumps json_loads rs2 w1 in
    (a1 ++ a2, w2).
Proof.
  revert w. induction rs1 as [|r rs1 IH]; intros w.
  - cbn. by destruct (serve _ _ rs2 w).
  - cbn [app serve]. destruct (handle_request _ _ r w) as [a w1].
    rewrite IH. destruct (serve _ _ rs1 w1) as [a1 w2].
    by destruct (serve _ _ rs2 w2).
Qed.

(** X16. The queue is first in, first out. With the store on and
    the list empty, after tasks have been queued, calls of
    [get_next_task] return them in the order in which they were queued,
    each marked as in progress with the time of the call, and the call
    after the last one returns no task; this for tasks that
    [json.loads] reads back as [json.dumps] wrote them. *)
Theorem queue_is_fifo json_dumps json_loads (ts : list task)
    (clocks : list float) (last : float) (w : world) :
  enabled w -> task_queue w = [] ->
  length clocks = length ts ->
  Forall (fun t => status t = "queued"%string /\ started_at t = None
                   /\ json_loads (json_dumps t) = Ok t) ts ->
  serve json_dumps json_loads
    (map (fun t => queue (id t) (queued_at t) (name t) (payload t)) ts
     ++ map next clocks ++ [next last]) w
  = (map (fun t => Ok (Queued t)) ts
     ++ zip_with (fun now t => Ok (Next (Some (taken now t)))) clocks ts
     ++ [Ok (Next None)], w).
Proof.
  intros Hw Hq Hlen Hts.
  assert (forall t, t ∈ ts ->
            queued (id t) (queued_at t) (name t) (payload t) = t) as Hsame.
  { intros t Hin. rewrite Forall_forall in Hts.
    destruct (Hts t Hin) as (Hs & Hst & _). destruct t. cbn in *. by subst. }
  assert (map (fun t => json_dumps (queued (id t) (queued_at t) (name t) (payload t))) ts
          = map json_dumps ts) as Hd.
  { apply map_ext_in. intros t Hin. f_equal. apply Hsame. by apply list_elem_of_In. }
  assert (map (fun t => Ok (Queued (queued (id t) (queued_at t) (name t) (payload t)))) ts
          = map (fun t => @Ok answer (Queued t)) ts) as Ha.
  { apply map_ext_in. intros t Hin. do 2 f_equal. apply Hsame. by apply list_elem_of_In. }
  rewrite serve_app, serve_queue by done. rewrite Hq, Hd, Ha. cbn [app].
  rewrite serve_app.
  rewrite (serve_next json_dumps json_loads ts clocks []).
  - cbn [serve handle_request]. unfold get_next_task, guarded.
    destruct Hw as (He & client & Hc).
    cbn [MEMORY_ENABLED redis_client task_queue]. rewrite He, Hc.
    destruct w. cbn in *. by subst.
  - destruct Hw as (He & client & Hc). split; [done|by exists client].
  - done.
  - eapply Forall_impl; [exact Hts|]. by intros t (_ & _ & H).
  - cbn. by rewrite app_nil_r.
Qed.

Lemma queue_is_fifo_witness :
  let dumps := fun t : task => id t in
  let loads := fun s : string =>
    Ok {| id := s; name := s; payload := Store.VNone; queued_at := 0%float;
          status := "queued"; started_at := None |} in
  let a := queued "a" 0%float "a" Store.VNone in
  let c := queued "c" 0%float "c" Store.VNone in
  let w := {| MEMORY_ENABLED := true;
              redis_client := Some {| Store.host := "localhost";
                                      Store.port := 6379; Store.db := 5 |};
              task_queue := [] |} in
  serve dumps loads
    ([queue "a" 0%float "a" Store.VNone; queue "c" 0%float "c" Store.VNone]
     ++ [next 1%float; next 2%float] ++ [next 3%float]) w
  = ([Ok (Queued a); Ok (Queued c)]
     ++ [Ok (Next (Some (taken 1%float a))); Ok (Next (Some (taken 2%float c)))]
     ++ [Ok (Next None)], w).
Proof.
  intros dumps loads a c w.
  apply (queue_is_fifo dumps loads [a; c] [1%float; 2%float] 3%float w).
  - split; [reflexivity|]. by eexists.
  - reflexivity.
  - reflexivity.
  - repeat constructor.
Defined.

End TasksExtra.
